(** * DynamicProcessPool: an interleaving model of the worker pool

    The repository holds the same pool twice: [DynamicProcessPool.h]
    (handler returns [bool], nothing is delivered to the submitter) and
    [tmp.h] (every submission is paired with a [std::promise] that the
    worker fulfils).  The two headers agree line by line except in

    - the element type of [qWork] ([T] against [workPair_t]),
    - [enqueue], which allocates the promise and returns its future,
    - the body of the loop of [workthread] ([result = handler(workItem)]
      against [doWork(workPair)]),
    - the lambda of [addWorkerWithWork].

    The model below therefore takes the header as a parameter ([flavour])
    and branches on it exactly at those places.

    Threads are modelled by an explicit program counter per thread and one
    step function over the shared state; one step is one access to shared
    memory (an atomic operation, a mutex operation, an operation on the
    queue while the mutex is held, a condition-variable operation) together
    with the local computation that follows it.  Scheduling is the
    nondeterministic choice of the next [action].

    What the model takes for granted:
    - the steps of all threads interleave in one total order (the atomics
      are used with their default, sequentially consistent, ordering; the
      plain [bool quit] is read and written as if it were atomic too);
    - a [std::thread] starts to run at some time after its construction, not
      necessarily before the constructing call returns;
    - [condition_variable::wait] may return without a notification;
    - one thread owns the pool and calls its public member functions, one
      call at a time ([workers.push_back] is not synchronised);
    - the handler is a function of the item and returns. *)

From Stdlib Require Import ZArith Lia List Bool.
From stdpp Require Import base tactics option list gmap.

Local Open Scope Z_scope.

(** ** Machine integers *)

(** [std::atomic<int>::fetch_add] and [fetch_sub] wrap around in two's
    complement on a 32 bit [int]. *)
Definition wrap32 (z : Z) : Z := (z + 2 ^ 31) mod 2 ^ 32 - 2 ^ 31.

Definition fetch_add (n d : Z) : Z := wrap32 (n + d).
Definition fetch_sub (n d : Z) : Z := wrap32 (n - d).

(** ** Data *)

(** Which of the two headers is modelled. *)
Inductive flavour := FireAndForget | WithFuture.

(** Program points of a worker thread.  The first two belong to the lambda
    of [addWorkerWithWork], the others to [workthread]. *)
Inductive wpc :=
| LambdaCall      (* lambda: about to call handler( workItem ) *)
| LambdaRun       (* lambda: inside the handler *)
| WtEnter         (* nWorker.fetch_add( 1 ) *)
| WtLoop          (* while( !quit && lifeCount > 0 ) *)
| WtLock          (* std::unique_lock<std::mutex> guard( queueMutex ) *)
| WtCheck         (* if( qWork.empty() ), mutex held *)
| WtIncWaiting    (* nWaiting.fetch_add(1) *)
| WtWait          (* signal.wait( guard ): release the mutex and block *)
| WtBlocked       (* blocked inside signal.wait *)
| WtWoken         (* unblocked, inside signal.wait, reacquiring the mutex *)
| WtDecWaiting    (* nWaiting.fetch_sub(1) *)
| WtRecheck       (* if( qWork.empty() ) continue; *)
| WtPop           (* workItem = qWork.front(); qWork.pop(); *)
| WtUnlock        (* guard.unlock() / end of the guard's scope *)
| WtIncWorking    (* nWorking.fetch_add(1) *)
| WtCall          (* about to call the handler *)
| WtRun           (* inside the handler *)
| WtSetValue      (* tmp.h, doWork: workPair.result->set_value( ... ) *)
| WtDelete        (* tmp.h, doWork: delete workPair.result *)
| WtDecWorking    (* nWorking.fetch_sub(1) *)
| WtDecLife       (* lifeCount -- *)
| WtLeave         (* nWorker.fetch_sub( 1 ) *)
| Done.           (* the thread function has returned *)

Global Instance wpc_eq_dec : EqDecision wpc.
Proof. solve_decision. Defined.

(** Who holds [queueMutex]. *)
Inductive owner := OClient | OWorker (t : nat).

(** A [std::promise<_OUT>] on the heap: the value of its shared state and
    whether [delete] has run on it. *)
Record promise (Out : Type) := mkPromise {
  value : option Out;
  freed : bool
}.
Arguments mkPromise {Out}.
Arguments value {Out}.
Arguments freed {Out}.

(** [workPair_t] of tmp.h.  In DynamicProcessPool.h the queue holds the bare
    item; there [result] is [None]. *)
Record workPair (Item : Type) := mkWorkPair {
  result : option nat;
  item : Item
}.
Arguments mkWorkPair {Item}.
Arguments result {Item}.
Arguments item {Item}.

(** A worker thread: its program point and the locals of the thread
    function.  [lifeCount] is the parameter of [workthread] (for an
    overflow worker, before that, the captured [lifeCount] of the lambda).
    [workItem] is the item captured by the lambda while the thread is in the
    lambda, and the local [workItem] ([workPair] in tmp.h) of the loop body
    from the pop on.  [resultVar] is the local [bool result] of
    DynamicProcessPool.h, and in tmp.h the temporary that [doWork] passes
    from [handler] to [set_value].  [budget] and [overflow] are history
    variables: the [lifeCount] the thread was created with and whether
    [addWorkerWithWork] created it. *)
Record worker (Item Out : Type) := mkWorker {
  pc : wpc;
  lifeCount : Z;
  workItem : option (workPair Item);
  resultVar : option Out;
  budget : Z;
  overflow : bool
}.
Arguments mkWorker {Item Out}.
Arguments pc {Item Out}.
Arguments lifeCount {Item Out}.
Arguments workItem {Item Out}.
Arguments resultVar {Item Out}.
Arguments budget {Item Out}.
Arguments overflow {Item Out}.

(** The data members of [DynamicProcessPool] ([handler] is a parameter of
    the model, [signal] has no state of its own: who is blocked on it is
    read off the threads). *)
Record pool (Item : Type) := mkPool {
  nWorker : Z;
  nWaiting : Z;
  nWorking : Z;
  workers : list nat;
  qWork : list (workPair Item);
  queueMutex : option owner;
  lifeTime : Z;
  maxWorker : Z;
  quit : bool
}.
Arguments mkPool {Item}.
Arguments nWorker {Item}.
Arguments nWaiting {Item}.
Arguments nWorking {Item}.
Arguments workers {Item}.
Arguments qWork {Item}.
Arguments queueMutex {Item}.
Arguments lifeTime {Item}.
Arguments maxWorker {Item}.
Arguments quit {Item}.

(** Program points of the thread that owns the pool and calls its public
    member functions. *)
Inductive cpc (Item : Type) :=
| CIdle                                      (* between two calls *)
| EnqTestWorker (wp : workPair Item)         (* maxWorker < nWorker.load() *)
| EnqTestWaiting (wp : workPair Item)        (* && nWaiting.load() == 0 *)
| EnqSpawn (wp : workPair Item)              (* addWorkerWithWork( 10, .. ) *)
| EnqLock (wp : workPair Item)               (* guard( queueMutex ) *)
| EnqPush (wp : workPair Item)               (* qWork.push( .. ) *)
| EnqUnlock (wp : workPair Item)             (* guard.unlock() *)
| EnqTestNotify (wp : workPair Item)         (* if( nWaiting.load() > 0 ) *)
| EnqNotify (wp : workPair Item)             (* signal.notify_one() *)
| EnqReturn (wp : workPair Item)             (* return [result->get_future()] *)
| QryWaiting (waiting working : option nat)  (* if( waiting != nullptr ) .. *)
| QryWorking (working : option nat)          (* if( working != nullptr ) .. *)
| KillSetQuit                                (* quit = true *)
| KillNotifyAll                              (* signal.notify_all() *)
| KillDetach                                 (* detach all, workers.clear() *)
| KillSpin (spincount : Z).                  (* while( nWorker.load() > 0 ) *)
Arguments CIdle {Item}.
Arguments EnqTestWorker {Item}.
Arguments EnqTestWaiting {Item}.
Arguments EnqSpawn {Item}.
Arguments EnqLock {Item}.
Arguments EnqPush {Item}.
Arguments EnqUnlock {Item}.
Arguments EnqTestNotify {Item}.
Arguments EnqNotify {Item}.
Arguments EnqReturn {Item}.
Arguments QryWaiting {Item}.
Arguments QryWorking {Item}.
Arguments KillSetQuit {Item}.
Arguments KillNotifyAll {Item}.
Arguments KillDetach {Item}.
Arguments KillSpin {Item}.

(** What happened so far, in order (a history variable, never read by the
    program). *)
Inductive event (Item Out : Type) :=
| EvPush (wp : workPair Item)               (* qWork.push *)
| EvPop (t : nat) (wp : workPair Item)      (* qWork.front(); qWork.pop() *)
| EvCall (t : nat) (direct : bool) (x : Item)
    (* the handler is entered; [direct]: from the lambda of
       addWorkerWithWork, not from the loop of workthread *)
| EvRet (t : nat) (x : Item) (v : Out)      (* the handler returns *)
| EvFulfil (t : nat) (p : nat) (v : Out)    (* promise p receives v *)
| EvKillReturn.                             (* kill() returns *)
Arguments EvPush {Item Out}.
Arguments EvPop {Item Out}.
Arguments EvCall {Item Out}.
Arguments EvRet {Item Out}.
Arguments EvFulfil {Item Out}.
Arguments EvKillReturn {Item Out}.

(** The whole system: the pool object, every thread created so far (a
    thread's index is its identity), the calling thread, the promises on the
    heap, the caller's memory that [queryPoolStatus] writes to, and the
    history. *)
Record state (Item Out : Type) := mkState {
  pl : pool Item;
  threads : list (worker Item Out);
  client : cpc Item;
  promises : list (promise Out);
  mem : gmap nat Z;
  log : list (event Item Out)
}.
Arguments mkState {Item Out}.
Arguments pl {Item Out}.
Arguments threads {Item Out}.
Arguments client {Item Out}.
Arguments promises {Item Out}.
Arguments mem {Item Out}.
Arguments log {Item Out}.

(** The public calls. A pointer argument is [None] for [nullptr] and
    [Some l] for the address [l] in the caller's memory. *)
Inductive call (Item : Type) :=
| CallEnqueue (x : Item)
| CallQuery (waiting working : option nat)
| CallKill.
Arguments CallEnqueue {Item}.
Arguments CallQuery {Item}.
Arguments CallKill {Item}.

(** One scheduling decision. [pick] is the thread that [notify_one] wakes
    when several are blocked; [ASpurious] is a wake-up of
    [condition_variable::wait] without a notification, which C++ allows. *)
Inductive action (Item : Type) :=
| ACall (c : call Item)
| AClient (pick : nat)
| AWorker (t : nat)
| ASpurious (t : nat).
Arguments ACall {Item}.
Arguments AClient {Item}.
Arguments AWorker {Item}.
Arguments ASpurious {Item}.

(** ** Operations *)

Section Model.
Context {Item Out : Type}.

(** [handler], fixed at construction ([const handler_t] in tmp.h). *)
Variable handler : Item → Out.
Variable header : flavour.

Local Abbreviation pool := (pool Item).
Local Abbreviation worker := (worker Item Out).
Local Abbreviation state := (state Item Out).
Local Abbreviation workPair := (workPair Item).

(** *** Field updates *)

Definition set_nWorker (v : Z) (p : pool) : pool :=
  mkPool v (nWaiting p) (nWorking p) (workers p) (qWork p) (queueMutex p)
         (lifeTime p) (maxWorker p) (quit p).
Definition set_nWaiting (v : Z) (p : pool) : pool :=
  mkPool (nWorker p) v (nWorking p) (workers p) (qWork p) (queueMutex p)
         (lifeTime p) (maxWorker p) (quit p).
Definition set_nWorking (v : Z) (p : pool) : pool :=
  mkPool (nWorker p) (nWaiting p) v (workers p) (qWork p) (queueMutex p)
         (lifeTime p) (maxWorker p) (quit p).
Definition set_workers (v : list nat) (p : pool) : pool :=
  mkPool (nWorker p) (nWaiting p) (nWorking p) v (qWork p) (queueMutex p)
         (lifeTime p) (maxWorker p) (quit p).
Definition set_qWork (v : list workPair) (p : pool) : pool :=
  mkPool (nWorker p) (nWaiting p) (nWorking p) (workers p) v (queueMutex p)
         (lifeTime p) (maxWorker p) (quit p).
Definition set_queueMutex (v : option owner) (p : pool) : pool :=
  mkPool (nWorker p) (nWaiting p) (nWorking p) (workers p) (qWork p) v
         (lifeTime p) (maxWorker p) (quit p).
Definition set_quit (v : bool) (p : pool) : pool :=
  mkPool (nWorker p) (nWaiting p) (nWorking p) (workers p) (qWork p)
         (queueMutex p) (lifeTime p) (maxWorker p) v.

Definition set_pc (c : wpc) (w : worker) : worker :=
  mkWorker c (lifeCount w) (workItem w) (resultVar w) (budget w) (overflow w).
Definition set_lifeCount (n : Z) (w : worker) : worker :=
  mkWorker (pc w) n (workItem w) (resultVar w) (budget w) (overflow w).
Definition set_workItem (x : option workPair) (w : worker) : worker :=
  mkWorker (pc w) (lifeCount w) x (resultVar w) (budget w) (overflow w).
Definition set_resultVar (v : option Out) (w : worker) : worker :=
  mkWorker (pc w) (lifeCount w) (workItem w) v (budget w) (overflow w).

Definition upd_pool (f : pool → pool) (s : state) : state :=
  mkState (f (pl s)) (threads s) (client s) (promises s) (mem s) (log s).
Definition set_threads (ts : list worker) (s : state) : state :=
  mkState (pl s) ts (client s) (promises s) (mem s) (log s).
Definition set_client (c : cpc Item) (s : state) : state :=
  mkState (pl s) (threads s) c (promises s) (mem s) (log s).
Definition set_promises (ps : list (promise Out)) (s : state) : state :=
  mkState (pl s) (threads s) (client s) ps (mem s) (log s).
Definition set_mem (m : gmap nat Z) (s : state) : state :=
  mkState (pl s) (threads s) (client s) (promises s) m (log s).
Definition emit (e : event Item Out) (s : state) : state :=
  mkState (pl s) (threads s) (client s) (promises s) (mem s) (log s ++ [e]).

(** Thread [t] continues as [w]. *)
Definition set_thread (t : nat) (w : worker) (s : state) : state :=
  set_threads (<[t := w]> (threads s)) s.

(** *** Starting threads *)

(** [addWorker]: a new thread that will run [workthread( lifeCount )]; its
    handle goes to the back of [workers]. *)
Definition addWorker (lifeCount : Z) (s : state) : state :=
  let t := length (threads s) in
  upd_pool (λ p, set_workers (workers p ++ [t]) p)
    (set_threads
       (threads s ++ [mkWorker WtEnter lifeCount None None lifeCount false]) s).

(** [addWorkerWithWork]: a new thread that will run the lambda, which has
    captured [workItem] and [lifeCount] by value. *)
Definition addWorkerWithWork (lifeCount : Z) (wp : workPair) (s : state)
  : state :=
  let t := length (threads s) in
  upd_pool (λ p, set_workers (workers p ++ [t]) p)
    (set_threads
       (threads s ++ [mkWorker LambdaCall lifeCount (Some wp) None lifeCount true])
       s).

(** The constructor: the member initialisers, then
    [for(int i=0;i<_initialWorkers;i++) addWorker( _lifeTime )].  The new
    threads have not run yet. *)
Definition construct (_initialWorkers _maxWorker _lifeTime : Z) : state :=
  Nat.iter (Z.to_nat _initialWorkers) (addWorker _lifeTime)
    (mkState (mkPool 0 0 0 [] [] None _lifeTime _maxWorker false)
             [] CIdle [] ∅ []).

(** *** The condition variable *)

Definition blocked (w : worker) : bool := bool_decide (pc w = WtBlocked).

Definition wake (w : worker) : worker :=
  if blocked w then set_pc WtWoken w else w.

(** [signal.notify_all()] *)
Definition notify_all (s : state) : state :=
  set_threads (wake <$> threads s) s.

(** [signal.notify_one()]: nothing happens when no thread is blocked;
    otherwise the blocked thread [pick] is unblocked. *)
Definition notify_one (pick : nat) (s : state) : option state :=
  if forallb (λ w, negb (blocked w)) (threads s) then Some s
  else match threads s !! pick with
       | Some w => if blocked w then Some (set_thread pick (wake w) s)
                   else None
       | None => None
       end.

(** *** One step of a worker thread *)

Definition worker_step (t : nat) (w : worker) (s : state) : option state :=
  let p := pl s in
  let goto c := set_thread t (set_pc c w) in
  match pc w with
  | LambdaCall =>
      match workItem w with
      | Some wp => Some (emit (EvCall t true (item wp)) (goto LambdaRun s))
      | None => None
      end
  | LambdaRun =>
      match workItem w with
      | Some wp =>
          let v := handler (item wp) in
          let w' := match header with
                    | FireAndForget => set_resultVar (Some v) w
                    | WithFuture => w
                    end in
          Some (emit (EvRet t (item wp) v)
                  (set_thread t (set_pc WtEnter w') s))
      | None => None
      end
  | WtEnter =>
      Some (goto WtLoop (upd_pool (set_nWorker (fetch_add (nWorker p) 1)) s))
  | WtLoop =>
      if negb (quit p) && (0 <? lifeCount w)
      then Some (goto WtLock s) else Some (goto WtLeave s)
  | WtLock =>
      match queueMutex p with
      | None =>
          Some (goto WtCheck (upd_pool (set_queueMutex (Some (OWorker t))) s))
      | Some _ => None
      end
  | WtCheck =>
      match qWork p with
      | [] => Some (goto WtIncWaiting s)
      | _ :: _ => Some (goto WtPop s)
      end
  | WtIncWaiting =>
      Some (goto WtWait (upd_pool (set_nWaiting (fetch_add (nWaiting p) 1)) s))
  | WtWait =>
      Some (goto WtBlocked (upd_pool (set_queueMutex None) s))
  | WtBlocked => None
  | WtWoken =>
      match queueMutex p with
      | None =>
          Some (goto WtDecWaiting
                  (upd_pool (set_queueMutex (Some (OWorker t))) s))
      | Some _ => None
      end
  | WtDecWaiting =>
      Some (goto WtRecheck
              (upd_pool (set_nWaiting (fetch_sub (nWaiting p) 1)) s))
  | WtRecheck =>
      match qWork p with
      | [] => Some (goto WtLoop (upd_pool (set_queueMutex None) s))
      | _ :: _ => Some (goto WtPop s)
      end
  | WtPop =>
      match qWork p with
      | wp :: q =>
          Some (emit (EvPop t wp)
                  (set_thread t (set_pc WtUnlock (set_workItem (Some wp) w))
                     (upd_pool (set_qWork q) s)))
      | [] => None
      end
  | WtUnlock =>
      Some (goto WtIncWorking (upd_pool (set_queueMutex None) s))
  | WtIncWorking =>
      Some (goto WtCall (upd_pool (set_nWorking (fetch_add (nWorking p) 1)) s))
  | WtCall =>
      match workItem w with
      | Some wp => Some (emit (EvCall t false (item wp)) (goto WtRun s))
      | None => None
      end
  | WtRun =>
      match workItem w with
      | Some wp =>
          let v := handler (item wp) in
          let next := match header with
                      | FireAndForget => WtDecWorking
                      | WithFuture => WtSetValue
                      end in
          Some (emit (EvRet t (item wp) v)
                  (set_thread t (set_pc next (set_resultVar (Some v) w)) s))
      | None => None
      end
  | WtSetValue =>
      match workItem w, resultVar w with
      | Some wp, Some v =>
          match result wp with
          | Some i =>
              match promises s !! i with
              | Some (mkPromise None false) =>
                  Some (emit (EvFulfil t i v)
                          (goto WtDelete
                             (set_promises
                                (<[i := mkPromise (Some v) false]> (promises s))
                                s)))
              | _ => None
              end
          | None => None
          end
      | _, _ => None
      end
  | WtDelete =>
      match workItem w with
      | Some wp =>
          match result wp with
          | Some i =>
              match promises s !! i with
              | Some (mkPromise v false) =>
                  Some (goto WtDecWorking
                          (set_promises
                             (<[i := mkPromise v true]> (promises s)) s))
              | _ => None
              end
          | None => None
          end
      | None => None
      end
  | WtDecWorking =>
      Some (goto WtDecLife
              (upd_pool (set_nWorking (fetch_sub (nWorking p) 1)) s))
  | WtDecLife =>
      (* the loop test has seen lifeCount > 0: the decrement cannot wrap *)
      Some (set_thread t (set_pc WtLoop (set_lifeCount (lifeCount w - 1) w)) s)
  | WtLeave =>
      Some (goto Done (upd_pool (set_nWorker (fetch_sub (nWorker p) 1)) s))
  | Done => None
  end.

(** *** One step of the calling thread *)

(** The test of [enqueue], as one expression: spawn a worker for the item
    instead of queueing it. *)
Definition spawn_condition (p : pool) : bool :=
  (maxWorker p <? nWorker p) && (nWaiting p =? 0).

(** [*ptr = v]; dereferencing [nullptr] has no defined outcome. *)
Definition store (ptr : option nat) (v : Z) (s : state) : option state :=
  match ptr with
  | Some l => Some (set_mem (<[l := v]> (mem s)) s)
  | None => None
  end.

Definition client_step (pick : nat) (s : state) : option state :=
  let p := pl s in
  match client s with
  | CIdle => None
  (* enqueue *)
  | EnqTestWorker wp =>
      if maxWorker p <? nWorker p
      then Some (set_client (EnqTestWaiting wp) s)
      else Some (set_client (EnqLock wp) s)
  | EnqTestWaiting wp =>
      if nWaiting p =? 0
      then Some (set_client (EnqSpawn wp) s)
      else Some (set_client (EnqLock wp) s)
  | EnqSpawn wp =>
      Some (set_client (EnqReturn wp) (addWorkerWithWork 10 wp s))
  | EnqLock wp =>
      match queueMutex p with
      | None =>
          Some (set_client (EnqPush wp)
                  (upd_pool (set_queueMutex (Some OClient)) s))
      | Some _ => None
      end
  | EnqPush wp =>
      Some (emit (EvPush wp)
              (set_client (EnqUnlock wp)
                 (upd_pool (set_qWork (qWork p ++ [wp])) s)))
  | EnqUnlock wp =>
      Some (set_client (EnqTestNotify wp) (upd_pool (set_queueMutex None) s))
  | EnqTestNotify wp =>
      if 0 <? nWaiting p
      then Some (set_client (EnqNotify wp) s)
      else Some (set_client (EnqReturn wp) s)
  | EnqNotify wp =>
      match notify_one pick s with
      | Some s' => Some (set_client (EnqReturn wp) s')
      | None => None
      end
  | EnqReturn wp =>
      match result wp with
      | None => Some (set_client CIdle s)
      | Some i =>
          (* workPair.result->get_future() needs a live promise *)
          match promises s !! i with
          | Some (mkPromise _ false) => Some (set_client CIdle s)
          | _ => None
          end
      end
  (* queryPoolStatus *)
  | QryWaiting waiting working =>
      match (if bool_decide (waiting ≠ None)
             then store waiting (nWaiting p) s else Some s) with
      | Some s' => Some (set_client (QryWorking working) s')
      | None => None
      end
  | QryWorking working =>
      match (if bool_decide (working ≠ None)
             then store working (nWorking p) s else Some s) with
      | Some s' => Some (set_client CIdle s')
      | None => None
      end
  (* kill *)
  | KillSetQuit =>
      Some (set_client KillNotifyAll (upd_pool (set_quit true) s))
  | KillNotifyAll =>
      Some (set_client KillDetach (notify_all s))
  | KillDetach =>
      Some (set_client (KillSpin 10000) (upd_pool (set_workers []) s))
  | KillSpin spincount =>
      if 0 <? nWorker p
      then if negb (spincount =? 0)   (* if( spincount ) spincount --; *)
           then Some (set_client (KillSpin (spincount - 1)) s)
           else Some s   (* sleep_for 1ms, then test again *)
      else Some (emit EvKillReturn (set_client CIdle s))
  end.

(** The calling thread enters a public member function.  In tmp.h,
    [enqueue] starts with [workPair.result = new std::promise<_OUT>()]. *)
Definition begin_call (c : call Item) (s : state) : option state :=
  match client s with
  | CIdle =>
      match c with
      | CallEnqueue x =>
          match header with
          | FireAndForget =>
              Some (set_client (EnqTestWorker (mkWorkPair None x)) s)
          | WithFuture =>
              let i := length (promises s) in
              Some (set_client (EnqTestWorker (mkWorkPair (Some i) x))
                      (set_promises (promises s ++ [mkPromise None false]) s))
          end
      | CallQuery waiting working =>
          Some (set_client (QryWaiting waiting working) s)
      | CallKill => Some (set_client KillSetQuit s)
      end
  | _ => None
  end.

(** *** The system *)

(** [None]: the action is not possible in [s] (the thread is blocked, does
    not exist or has finished, the call is not enabled) or it has no
    defined outcome. *)
Definition step (s : state) (a : action Item) : option state :=
  match a with
  | ACall c => begin_call c s
  | AClient pick => client_step pick s
  | AWorker t =>
      match threads s !! t with
      | Some w => worker_step t w s
      | None => None
      end
  | ASpurious t =>
      match threads s !! t with
      | Some w => if blocked w then Some (set_thread t (wake w) s) else None
      | None => None
      end
  end.

Fixpoint run (s : state) (tr : list (action Item)) : option state :=
  match tr with
  | [] => Some s
  | a :: tr' =>
      match step s a with
      | Some s' => run s' tr'
      | None => None
      end
  end.

(** States that some schedule reaches from a freshly constructed pool. *)
Inductive reachable (iw mw lt : Z) : state → Prop :=
| reach_construct : reachable iw mw lt (construct iw mw lt)
| reach_step s a s' :
    reachable iw mw lt s → step s a = Some s' → reachable iw mw lt s'.

End Model.


(** ** Vocabulary of the properties *)

Definition b2z (b : bool) : Z := if b then 1 else 0.

(** How many elements of [l] satisfy [f]. *)
Fixpoint tally {A : Type} (f : A → bool) (l : list A) : Z :=
  match l with
  | [] => 0
  | x :: l' => b2z (f x) + tally f l'
  end.

Section Vocabulary.
Context {Item Out : Type}.

Local Abbreviation worker := (worker Item Out).
Local Abbreviation state := (state Item Out).

(** The program points at which a thread has added itself to [nWorker],
    [nWaiting], [nWorking] and not yet removed itself. *)
Definition counted (w : worker) : bool :=
  match pc w with
  | LambdaCall | LambdaRun | WtEnter | Done => false
  | _ => true
  end.

Definition waiting (w : worker) : bool :=
  match pc w with
  | WtWait | WtBlocked | WtWoken | WtDecWaiting => true
  | _ => false
  end.

Definition working (w : worker) : bool :=
  match pc w with
  | WtCall | WtRun | WtSetValue | WtDelete | WtDecWorking => true
  | _ => false
  end.

Definition counters_ok (s : state) : Prop :=
  nWorker (pl s) = wrap32 (tally counted (threads s)) ∧
  nWaiting (pl s) = wrap32 (tally waiting (threads s)) ∧
  nWorking (pl s) = wrap32 (tally working (threads s)).

(** Handler invocations by thread [t] so far, the lambda's included. *)
Definition is_call (t : nat) (e : event Item Out) : bool :=
  match e with
  | EvCall t' _ _ => bool_decide (t' = t)
  | _ => false
  end.

Definition calls (t : nat) (s : state) : Z := tally (is_call t) (log s).

(** Program points of the loop body at which the handler has been entered
    in this iteration and [lifeCount] not yet decremented. *)
Definition called (c : wpc) : bool :=
  match c with
  | WtRun | WtSetValue | WtDelete | WtDecWorking | WtDecLife => true
  | _ => false
  end.

(** How the number [n] of handler invocations of a thread, its [lifeCount]
    and its program point hang together; [q] is the [quit] flag. *)
Definition life_ok (q : bool) (n : Z) (w : worker) : Prop :=
  lifeCount w ≤ budget w ∧ (0 ≤ lifeCount w ∨ lifeCount w = budget w) ∧
  match pc w with
  | LambdaCall => overflow w = true ∧ n = 0 ∧ lifeCount w = budget w
  | LambdaRun => overflow w = true ∧ n = 1 ∧ lifeCount w = budget w
  | WtEnter => n = b2z (overflow w) ∧ lifeCount w = budget w
  | WtLoop => n = b2z (overflow w) + (budget w - lifeCount w)
  | WtLeave | Done =>
      n = b2z (overflow w) + (budget w - lifeCount w) ∧
      (lifeCount w ≤ 0 ∨ q = true)
  | c => 0 < lifeCount w ∧
         n = b2z (overflow w) + (budget w - lifeCount w) + b2z (called c)
  end.

Definition life_inv (s : state) : Prop :=
  (∀ t w, threads s !! t = Some w →
          life_ok (quit (pl s)) (calls t s) w ∧
          budget w = (if overflow w then 10 else lifeTime (pl s))) ∧
  (∀ t, (length (threads s) ≤ t)%nat → calls t s = 0).

(** The queue traffic in the history: what was pushed, what was popped
    (by anyone, by thread [t]), and the items on which the loop of
    [workthread] entered the handler (in any thread, in thread [t]). *)
Definition pushes (l : list (event Item Out)) : list (workPair Item) :=
  flat_map (λ e, match e with EvPush wp => [wp] | _ => [] end) l.

Definition pops (l : list (event Item Out)) : list (workPair Item) :=
  flat_map (λ e, match e with EvPop _ wp => [wp] | _ => [] end) l.

Definition pops_by (t : nat) (l : list (event Item Out))
  : list (workPair Item) :=
  flat_map (λ e, match e with
                 | EvPop t' wp => if bool_decide (t' = t) then [wp] else []
                 | _ => []
                 end) l.

Definition loop_calls (l : list (event Item Out)) : list Item :=
  flat_map (λ e, match e with EvCall _ false x => [x] | _ => [] end) l.

Definition loop_calls_by (t : nat) (l : list (event Item Out)) : list Item :=
  flat_map (λ e, match e with
                 | EvCall t' false x => if bool_decide (t' = t) then [x] else []
                 | _ => []
                 end) l.

(** The item a thread has popped and not yet passed to the handler. *)
Definition pending (w : worker) : list Item :=
  match pc w, workItem w with
  | (WtUnlock | WtIncWorking | WtCall), Some wp => [item wp]
  | _, _ => []
  end.

Definition fifo_inv (s : state) : Prop :=
  pops (log s) ++ qWork (pl s) = pushes (log s) ∧
  (∀ t w, threads s !! t = Some w →
          loop_calls_by t (log s) ++ pending w = item <$> pops_by t (log s)) ∧
  (∀ t, (length (threads s) ≤ t)%nat →
        loop_calls_by t (log s) = [] ∧ pops_by t (log s) = []).

(** The ordering sentence of the specification: the queued items enter the
    handler in the order in which they were queued. *)
Definition served_in_submission_order (s : state) : Prop :=
  loop_calls (log s) `prefix_of` item <$> pushes (log s).

(** What [queryPoolStatus] is to leave in the caller's memory for one of
    its two pointers: [v] at the address, if there is one. *)
Definition reported (ptr : option nat) (v : Z) (m : gmap nat Z) : gmap nat Z :=
  match ptr with
  | Some l => <[l := v]> m
  | None => m
  end.

(** Every thread has returned, [nWorker] is back at zero and the caller is
    not in the spawning branch of [enqueue]. *)
Definition stalled (s : state) : Prop :=
  (∀ t w, threads s !! t = Some w → pc w = Done) ∧
  nWorker (pl s) = 0 ∧ 0 ≤ maxWorker (pl s) ∧
  match client s with
  | EnqTestWaiting _ | EnqSpawn _ => False
  | _ => True
  end.

(** The pair the caller is about to hand over, while it is inside
    [enqueue] and has neither queued it nor started a thread for it. *)
Definition submitting (c : cpc Item) : option (workPair Item) :=
  match c with
  | EnqTestWorker wp | EnqTestWaiting wp | EnqSpawn wp | EnqLock wp
  | EnqPush wp => Some wp
  | _ => None
  end.

(** Program points of [workthread] at which [workItem] holds the pair
    popped in this iteration. *)
Definition in_hand (c : wpc) : bool :=
  match c with
  | WtUnlock | WtIncWorking | WtCall | WtRun | WtSetValue | WtDelete => true
  | _ => false
  end.

(** Promise [i] is unfulfilled and out of reach: no pair in the queue, in
    the hand of a worker inside the loop, or being queued by the caller
    points to it. *)
Definition orphan (i : nat) (s : state) : Prop :=
  promises s !! i = Some (mkPromise None false) ∧
  (∀ wp, wp ∈ qWork (pl s) → result wp ≠ Some i) ∧
  (∀ t w wp, threads s !! t = Some w → in_hand (pc w) = true →
             workItem w = Some wp → result wp ≠ Some i) ∧
  (∀ wp, submitting (client s) = Some wp → result wp ≠ Some i).

(** After [kill()] has returned: [quit] is set and every thread is outside
    the body of the loop of [workthread]. *)
Definition outside_body (c : wpc) : bool :=
  match c with
  | LambdaCall | LambdaRun | WtEnter | WtLoop | WtLeave | Done => true
  | _ => false
  end.

Definition drained (s : state) : Prop :=
  quit (pl s) = true ∧
  ∀ t w, threads s !! t = Some w → outside_body (pc w) = true.

(** [quit] is set from the first statement of [kill()] on. *)
Definition killing (c : cpc Item) : bool :=
  match c with
  | KillNotifyAll | KillDetach | KillSpin _ => true
  | _ => false
  end.

Definition kill_inv (s : state) : Prop :=
  killing (client s) = true → quit (pl s) = true.

(** The life-count sentence of the specification, read on a thread [t]
    that is about to leave or has left [nWorker]: it has made exactly as
    many handler invocations as its budget, or fewer and [quit] is set. *)
Definition retires_on_budget (s : state) (t : nat) (w : worker) : Prop :=
  pc w = WtLeave ∨ pc w = Done →
  calls t s = budget w ∨ (calls t s < budget w ∧ quit (pl s) = true).

End Vocabulary.

(** *** What an observer of the fire-and-forget pool cannot see

    In DynamicProcessPool.h the value the handler returns is assigned to
    the local [result] and never read.  [erase] forgets that local in every
    thread and the value recorded with a return in the history; everything
    else of the state is kept. *)
Section Erase.
Context {Item : Type}.

Definition forget_result (w : worker Item bool) : worker Item bool :=
  mkWorker (pc w) (lifeCount w) (workItem w) None (budget w) (overflow w).

Definition forget_value (e : event Item bool) : event Item bool :=
  match e with
  | EvRet t x _ => EvRet t x false
  | e => e
  end.

Definition erase (s : state Item bool) : state Item bool :=
  mkState (pl s) (forget_result <$> threads s) (client s) (promises s)
          (mem s) (forget_value <$> log s).

(** No thread stands inside [doWork], which only tmp.h has. *)
Definition outside_doWork (s : state Item bool) : Prop :=
  ∀ t w, threads s !! t = Some w → pc w ≠ WtSetValue ∧ pc w ≠ WtDelete.

End Erase.

(** ** Sample runs *)

(** A pool of two workers, one blocked in [signal.wait] and one inside the
    handler. *)
Definition sample_handler (x : nat) : bool := Nat.even x.

Definition sample_schedule : list (action nat) :=
  repeat (AWorker 0%nat) 6 ++
  [ACall (CallEnqueue 5%nat)] ++ repeat (AClient 0%nat) 7 ++
  repeat (AWorker 0%nat) 7 ++ repeat (AWorker 1%nat) 6.

(** One complete [enqueue( x )] that takes the queueing branch while no
    thread is waiting: the call, then the six steps up to the return. *)
Definition enqueue_quietly (x : nat) : list (action nat) :=
  ACall (CallEnqueue x) :: repeat (AClient 0%nat) 6.

(** A pool with [maxWorker = 0] and one initial worker of life time 0.
    Ten items are queued before any thread has run; the initial worker
    enters [workthread]; the eleventh [enqueue] then finds
    [maxWorker < nWorker] and nobody waiting and starts an overflow worker,
    which runs to its end. *)
Definition overflow_schedule : list (action nat) :=
  flat_map enqueue_quietly (seq 1 10) ++
  [AWorker 0%nat] ++
  ACall (CallEnqueue 0%nat) :: repeat (AClient 0%nat) 4 ++
  repeat (AWorker 1%nat) 105.

(** Two workers and two queued items: worker 0 pops the first item, worker 1
    pops the second and enters the handler, then worker 0 enters it. *)
Definition overtaking_schedule : list (action nat) :=
  enqueue_quietly 1 ++ enqueue_quietly 2 ++
  repeat (AWorker 0%nat) 6 ++ repeat (AWorker 1%nat) 8 ++
  repeat (AWorker 0%nat) 2.


(** [enqueue( x )] in a state in which it takes the spawning branch: the
    call, the two tests, [addWorkerWithWork], the return. *)
Definition enqueue_spawning (x : nat) : list (action nat) :=
  ACall (CallEnqueue x) :: repeat (AClient 0%nat) 4.

(** Both initial workers of a pool with [maxWorker = 4] have entered
    [workthread] and are about to test the loop condition. *)
Definition two_workers_started : list (action nat) :=
  [AWorker 0%nat; AWorker 1%nat].

(** [maxWorker = 4], one initial worker of life time 1: an item is queued,
    the worker serves it and retires; then a second item is submitted. *)
Definition retire_then_enqueue : list (action nat) :=
  enqueue_quietly 1 ++ repeat (AWorker 0%nat) 13 ++ enqueue_quietly 2.

(** [maxWorker = 0], one initial worker, which has entered [workthread]
    when an item is submitted: the item goes to an overflow worker, which
    runs the handler on it and then blocks on the empty queue. *)
Definition overflow_submission : list (action nat) :=
  [AWorker 0%nat] ++ enqueue_spawning 7 ++ repeat (AWorker 1%nat) 8.

(** The same submission, followed at once by [kill()]: the initial worker
    sees [quit] and leaves, [kill()] reads [nWorker == 0] and returns, and
    only then does the overflow worker run. *)
Definition kill_before_overflow_runs : list (action nat) :=
  [AWorker 0%nat] ++ enqueue_spawning 7 ++
  ACall CallKill :: repeat (AClient 0%nat) 4 ++
  repeat (AWorker 0%nat) 2 ++ [AClient 0%nat] ++
  repeat (AWorker 1%nat) 3.

Definition sample_future_handler (x : nat) : nat := (x + 1)%nat.

(** ** Vocabulary of the further properties *)

Section Further.
Context {Item Out : Type}.

Local Abbreviation worker := (worker Item Out).
Local Abbreviation state := (state Item Out).

(** *** The mutex *)

(** Program points between the construction of [guard] (or the return of
    [signal.wait], which has taken the mutex again) and the release of the
    mutex. *)
Definition holds_lock (c : wpc) : bool :=
  match c with
  | WtCheck | WtIncWaiting | WtWait | WtDecWaiting | WtRecheck | WtPop
  | WtUnlock => true
  | _ => false
  end.

(** The same for [enqueue]: between [guard( queueMutex )] and
    [guard.unlock()]. *)
Definition client_locks (c : cpc Item) : bool :=
  match c with
  | EnqPush _ | EnqUnlock _ => true
  | _ => false
  end.

(** [queueMutex] records who is inside a guarded region: whoever is inside
    one is the owner, and the mutex is taken exactly when someone is. *)
Definition locked (p : pool Item) : bool :=
  match queueMutex p with
  | Some _ => true
  | None => false
  end.

Definition mutex_inv (s : state) : Prop :=
  (∀ t w, threads s !! t = Some w → holds_lock (pc w) = true →
          queueMutex (pl s) = Some (OWorker t)) ∧
  (client_locks (client s) = true → queueMutex (pl s) = Some OClient) ∧
  tally (λ w, holds_lock (pc w)) (threads s) + b2z (client_locks (client s))
  = b2z (locked (pl s)).

(** *** Items in flight *)

(** Every item that has left the queue has been passed to the handler by
    the loop of [workthread] or is in the hand of the worker that popped
    it. *)
Definition in_flight (s : state) : list Item :=
  flat_map pending (threads s).

Definition handled_once (s : state) : Prop :=
  loop_calls (log s) ++ in_flight s ≡ₚ item <$> pops (log s).

(** *** Promises on the queue path (tmp.h) *)

(** The pair points to promise [i]. *)
Definition points (i : nat) (wp : workPair Item) : bool :=
  bool_decide (result wp = Some i).

(** Thread [w] holds a pair that points to promise [i] and has not yet
    called [set_value] on it ([holds_empty]), or stands between
    [set_value] and [delete] ([holds_full]). *)
Definition holds_empty (i : nat) (w : worker) : bool :=
  match pc w, workItem w with
  | (WtUnlock | WtIncWorking | WtCall | WtRun | WtSetValue), Some wp =>
      points i wp
  | _, _ => false
  end.

Definition holds_full (i : nat) (w : worker) : bool :=
  match pc w, workItem w with
  | WtDelete, Some wp => points i wp
  | _, _ => false
  end.

Definition submits (i : nat) (c : cpc Item) : bool :=
  match submitting c with
  | Some wp => points i wp
  | None => false
  end.

(** How many parts of the program will still call [set_value], or
    [delete], on promise [i]. *)
Definition owners_empty (i : nat) (s : state) : Z :=
  tally (points i) (qWork (pl s)) + tally (holds_empty i) (threads s) +
  b2z (submits i (client s)).

Definition owners_full (i : nat) (s : state) : Z :=
  tally (holds_full i) (threads s).

(** The state of promise [i] on the heap. *)
Definition empty_live (ps : list (promise Out)) (i : nat) : bool :=
  match ps !! i with
  | Some (mkPromise None false) => true
  | _ => false
  end.

Definition full_live (ps : list (promise Out)) (i : nat) : bool :=
  match ps !! i with
  | Some (mkPromise (Some _) false) => true
  | _ => false
  end.

Definition has_value (ps : list (promise Out)) (i : nat) : bool :=
  match ps !! i with
  | Some (mkPromise (Some _) _) => true
  | _ => false
  end.

Definition is_fulfil (i : nat) (e : event Item Out) : bool :=
  match e with
  | EvFulfil _ j _ => bool_decide (j = i)
  | _ => false
  end.

(** Each promise has at most one owner; while [set_value] is still to
    come the promise is empty, between [set_value] and [delete] it has its
    value, and in both cases it has not been deleted; it has received a
    value as often as it has one, that is at most once. *)
Definition promise_inv (s : state) : Prop :=
  ∀ i, owners_empty i s + owners_full i s ≤ 1 ∧
       (0 < owners_empty i s → empty_live (promises s) i = true) ∧
       (0 < owners_full i s → full_live (promises s) i = true) ∧
       tally (is_fulfil i) (log s) = b2z (has_value (promises s) i).

End Further.

Section FurtherHandler.
Context {Item Out : Type}.
Variable handler : Item → Out.

(** In tmp.h every pair carries a promise; a worker that holds a pair has
    popped it, and from the return of the handler on it holds the
    handler's value for it; every value given to a promise is the
    handler's value for the item of a pair that was popped by the
    fulfilling worker and points to that promise. *)
Definition pairs_inv (s : state Item Out) : Prop :=
  (∀ wp, wp ∈ qWork (pl s) → is_Some (result wp)) ∧
  (∀ t w, threads s !! t = Some w → in_hand (pc w) = true →
          ∃ wp, workItem w = Some wp ∧ is_Some (result wp) ∧
                EvPop t wp ∈ log s ∧
                (pc w = WtSetValue ∨ pc w = WtDelete →
                 resultVar w = Some (handler (item wp)))) ∧
  (∀ wp, submitting (client s) = Some wp → is_Some (result wp)) ∧
  (∀ t i v, EvFulfil t i v ∈ log s →
            ∃ wp, EvPop t wp ∈ log s ∧ result wp = Some i ∧
                  v = handler (item wp)).

End FurtherHandler.

(** ** The work item in hand *)

Section Work_vocabulary.
Context {Item Out : Type}.

(** Program points at which a thread reads its [workItem]: the lambda of
    [addWorkerWithWork], which has captured it, and the loop of
    [workthread] from the pop to the end of [doWork]. *)
Definition has_item (c : wpc) : bool :=
  match c with
  | LambdaCall | LambdaRun | WtUnlock | WtIncWorking | WtCall | WtRun
  | WtSetValue | WtDelete => true
  | _ => false
  end.

(** A thread that stands at [qWork.front()] finds the queue non-empty, and
    a thread that is to read its [workItem] has one. *)
Definition work_inv (s : state Item Out) : Prop :=
  (∀ t w, threads s !! t = Some w → pc w = WtPop → qWork (pl s) ≠ []) ∧
  (∀ t w, threads s !! t = Some w → has_item (pc w) = true →
          is_Some (workItem w)).

(** Program points at which a thread cannot move on its own, or moves
    only when the mutex is free. *)
Definition needs_mutex (c : wpc) : bool :=
  match c with WtLock | WtWoken => true | _ => false end.

Definition at_rest (c : wpc) : bool :=
  match c with WtBlocked | Done => true | _ => false end.

Definition in_doWork (c : wpc) : bool :=
  match c with WtSetValue | WtDelete => true | _ => false end.

End Work_vocabulary.

(** ** A call of [enqueue] on its own *)

Section Enqueue_vocabulary.
Context {Item Out : Type}.

(** The pair [enqueue( x )] builds in state [s]: in tmp.h it points to the
    promise allocated at the start of the call. *)
Definition new_pair (header : flavour) (x : Item) (s : state Item Out)
  : workPair Item :=
  mkWorkPair (match header with
              | FireAndForget => None
              | WithFuture => Some (length (promises s))
              end) x.

Definition with_promise (header : flavour) (s : state Item Out)
  : state Item Out :=
  match header with
  | FireAndForget => s
  | WithFuture => set_promises (promises s ++ [mkPromise None false]) s
  end.

End Enqueue_vocabulary.

(** ** Shutdown *)

Section Shutdown_vocabulary.
Context {Item Out : Type}.

(** Program points from which a thread can still reach a call of the
    handler without passing the test of the loop of [workthread]: the
    start of the lambda of [addWorkerWithWork], and the body of the loop
    up to the call. *)
Definition may_call (c : wpc) : bool :=
  match c with
  | LambdaCall | WtLock | WtCheck | WtIncWaiting | WtWait | WtBlocked
  | WtWoken | WtDecWaiting | WtRecheck | WtPop | WtUnlock | WtIncWorking
  | WtCall => true
  | _ => false
  end.

(** The handler invocations of thread [t] so far, and the one it can
    still make once [quit] is set; a thread that does not exist yet can
    only be started by [addWorkerWithWork]. *)
Definition calls_left (t : nat) (s : state Item Out) : Z :=
  calls t s + match threads s !! t with
              | Some w => b2z (may_call (pc w))
              | None => 1
              end.

(** [kill()] is in its wait loop, [nWorker] is positive, and every thread
    has returned or is blocked in [signal.wait]. *)
Definition hung (s : state Item Out) : Prop :=
  (∃ spincount, client s = KillSpin spincount) ∧ 0 < nWorker (pl s) ∧
  ∀ t w, threads s !! t = Some w → pc w = WtBlocked ∨ pc w = Done.

Definition is_spurious (a : action Item) : bool :=
  match a with ASpurious _ => true | _ => false end.

End Shutdown_vocabulary.

(** ** More sample runs *)

(** tmp.h, one worker of life time 1: an item is queued, the worker pops
    it, runs the handler on it and gives the value to the promise. *)
Definition served_with_future : list (action nat) :=
  enqueue_quietly 7 ++ repeat (AWorker 0%nat) 10.

(** An item is queued and [kill()] is called before the worker has
    entered [workthread]; the calling thread stands at the first test of
    the wait loop. *)
Definition kill_with_item_queued : list (action nat) :=
  enqueue_quietly 7 ++ ACall CallKill :: repeat (AClient 0%nat) 3.

(** An item is queued, the worker passes the test of the loop, and then
    [kill()] sets [quit]. *)
Definition quit_during_iteration : list (action nat) :=
  enqueue_quietly 7 ++ repeat (AWorker 0%nat) 2 ++
  [ACall CallKill; AClient 0%nat].

(** The worker passes the test of the loop; [kill()] sets [quit], calls
    [notify_all] and reaches its wait loop; only then does the worker
    find the queue empty and call [signal.wait]. *)
Definition notify_before_wait {Item} : list (action Item) :=
  repeat (AWorker 0%nat) 2 ++ ACall CallKill :: repeat (AClient 0%nat) 3 ++
  repeat (AWorker 0%nat) 4.

(** tmp.h: [enqueue( x )] has queued its pair and released the mutex; the
    worker pops the pair and runs [doWork] on it to the end; [enqueue]
    then finds nobody waiting and stands at its [return]. *)
Definition served_before_return {Item} (x : Item) : list (action Item) :=
  ACall (CallEnqueue x) :: repeat (AClient 0%nat) 4 ++
  repeat (AWorker 0%nat) 11 ++ [AClient 0%nat].

(** The worker blocks on the empty queue; [enqueue( 5 )] queues its item,
    releases the mutex and stands at the test before [notify_one]. *)
Definition enqueue_finds_waiter : list (action nat) :=
  repeat (AWorker 0%nat) 6 ++
  ACall (CallEnqueue 5%nat) :: repeat (AClient 0%nat) 4.

(** The worker has entered [workthread] and stands at the test of the
    loop; one item is queued. *)
Definition item_queued_for_worker : list (action nat) :=
  enqueue_quietly 7 ++ [AWorker 0%nat].

(** ** The invocations of one thread *)

Section Trace_vocabulary.
Context {Item Out : Type}.

(** The handler invocations of thread [t] in the order in which it made
    them, each with its mark: [true] for the call in the lambda of
    [addWorkerWithWork], [false] for a call in the loop of [workthread]. *)
Definition call_trace (t : nat) (l : list (event Item Out))
  : list (bool * Item) :=
  flat_map (λ e, match e with
                 | EvCall t' d x => if bool_decide (t' = t) then [(d, x)] else []
                 | _ => []
                 end) l.

(** The items on which the lambda of thread [t] called the handler. *)
Definition direct_calls_by (t : nat) (l : list (event Item Out)) : list Item :=
  flat_map (λ e, match e with
                 | EvCall t' true x => if bool_decide (t' = t) then [x] else []
                 | _ => []
                 end) l.

(** The thread runs the lambda of [addWorkerWithWork] and is past its call
    of the handler. *)
Definition lambda_done (w : worker Item Out) : bool :=
  overflow w && negb (bool_decide (pc w = LambdaCall)).

(** The invocations of a thread are those of its lambda followed by those
    of its loop, and the lambda makes one, once. *)
Definition trace_inv (s : state Item Out) : Prop :=
  ∀ t w, threads s !! t = Some w →
    call_trace t (log s)
    = (pair true <$> direct_calls_by t (log s)) ++
      (pair false <$> loop_calls_by t (log s)) ∧
    Z.of_nat (length (direct_calls_by t (log s))) = b2z (lambda_done w).

(** Thread [t] was started by [addWorkerWithWork] for item [x]. *)
Definition spawned_with (t : nat) (x : Item) (s : state Item Out) : Prop :=
  (t < length (threads s))%nat ∧
  ∀ w, threads s !! t = Some w →
    overflow w = true ∧
    (pc w = LambdaCall → ∃ wp, workItem w = Some wp ∧ item wp = x) ∧
    (pc w ≠ LambdaCall → direct_calls_by t (log s) = [x]).

End Trace_vocabulary.

(** [overflow_schedule] in three parts: up to the call of
    [addWorkerWithWork] for item 0, that call, and the rest. *)
Definition overflow_until_spawn : list (action nat) :=
  flat_map enqueue_quietly (seq 1 10) ++
  [AWorker 0%nat] ++
  ACall (CallEnqueue 0%nat) :: repeat (AClient 0%nat) 2.

Definition overflow_after_spawn : list (action nat) :=
  AClient 0%nat :: repeat (AWorker 1%nat) 105.

(** ** Waking up on an empty queue *)

Section Wakeup_vocabulary.
Context {Item Out : Type}.
Variable handler : Item → Out.
Variable header : flavour.


End Wakeup_vocabulary.


(** ** Before the first call *)

Section Start_vocabulary.
Context {Item Out : Type}.

(** Steps of the worker threads, as opposed to steps of the calling
    thread. *)
Definition is_thread_action (a : action Item) : bool :=
  match a with AWorker _ | ASpurious _ => true | _ => false end.

(** Program points of [workthread] outside the part of the loop body that
    follows a successful test of the queue. *)
Definition before_first_item (c : wpc) : bool :=
  match c with
  | WtEnter | WtLoop | WtLock | WtCheck | WtIncWaiting | WtWait | WtBlocked
  | WtWoken | WtDecWaiting | WtRecheck | WtLeave | Done => true
  | _ => false
  end.

(** A pool of [n] initial workers on which no member function has been
    called yet: the workers may have run, but there has been nothing for
    them to do. *)
Definition fresh_pool (n : nat) (mw lt : Z) (s : state Item Out) : Prop :=
  client s = CIdle ∧ promises s = [] ∧ mem s = ∅ ∧ log s = [] ∧
  qWork (pl s) = [] ∧ quit (pl s) = false ∧ nWorking (pl s) = 0 ∧
  workers (pl s) = seq 0 n ∧ lifeTime (pl s) = lt ∧ maxWorker (pl s) = mw ∧
  length (threads s) = n ∧
  ∀ t w, threads s !! t = Some w →
         before_first_item (pc w) = true ∧ lifeCount w = lt ∧ budget w = lt ∧
         workItem w = None ∧ resultVar w = None ∧ overflow w = false.

End Start_vocabulary.

(** Two workers of a new pool have started to run before the constructor
    returns: one is blocked in [signal.wait], the other has counted
    itself. *)
Definition workers_run_early : list (action nat) :=
  repeat (AWorker 0%nat) 6 ++ [AWorker 1%nat].
(** * Lemmas *)

(** ** Wrap-around *)

Lemma wrap32_id z : - 2 ^ 31 ≤ z < 2 ^ 31 → wrap32 z = z.
Proof. intros H. unfold wrap32. rewrite Z.mod_small; lia. Qed.

Lemma wrap32_add_l a b : wrap32 (wrap32 a + b) = wrap32 (a + b).
Proof.
  unfold wrap32. f_equal.
  replace ((a + 2 ^ 31) mod 2 ^ 32 - 2 ^ 31 + b + 2 ^ 31)
    with ((a + 2 ^ 31) mod 2 ^ 32 + b) by lia.
  rewrite Zplus_mod_idemp_l. f_equal. lia.
Qed.

Lemma wrap32_sub_l a b : wrap32 (wrap32 a - b) = wrap32 (a - b).
Proof. apply (wrap32_add_l a (- b)). Qed.

(** ** Counting threads *)

Section Tally.
Context {A : Type}.

Lemma tally_app f (l k : list A) : tally f (l ++ k) = tally f l + tally f k.
Proof. induction l as [|x l IH]; simpl; lia. Qed.

Lemma tally_insert f (l : list A) i x y :
  l !! i = Some y → tally f (<[i := x]> l) = tally f l - b2z (f y) + b2z (f x).
Proof.
  revert i. induction l as [|z l IH]; intros [|i] H; simplify_eq/=; try lia.
  rewrite (IH i) by done. lia.
Qed.

Lemma tally_fmap f (g : A → A) (l : list A) :
  (∀ x, f (g x) = f x) → tally f (g <$> l) = tally f l.
Proof.
  intros H. induction l as [|x l IH]; csimpl; [done|]. by rewrite H, IH.
Qed.

Lemma tally_nonneg f (l : list A) : 0 ≤ tally f l.
Proof. induction l as [|x l IH]; simpl; [lia|]. destruct (f x); simpl; lia. Qed.

Lemma tally_sum_le f g h (l : list A) :
  (∀ x, b2z (f x) + b2z (g x) ≤ b2z (h x)) →
  tally f l + tally g l ≤ tally h l.
Proof.
  intros H. induction l as [|x l IH]; simpl; [lia|]. specialize (H x). lia.
Qed.

End Tally.

Lemma tally_zero {A} (f : A → bool) (l : list A) i x :
  tally f l = 0 → l !! i = Some x → f x = false.
Proof.
  revert i. induction l as [|y l IH]; intros i H Hl; [done|]. simpl in H.
  pose proof (tally_nonneg f l).
  destruct i as [|i]; simplify_eq/=.
  - destruct (f x); simpl in *; [lia|done].
  - apply (IH i); [|done]. destruct (f y); simpl in *; lia.
Qed.

(** ** Tactics *)

Lemma wake_blocked {Item Out} (w : worker Item Out) :
  pc w = WtBlocked → wake w = set_pc WtWoken w.
Proof. intros E. unfold wake, blocked. by rewrite bool_decide_eq_true_2. Qed.

(** Case analysis on the step taken: one goal per program point, with the
    equations that select it in the context. *)
Ltac step_inv H :=
  unfold step, begin_call, client_step, worker_step, notify_one, store in H;
  repeat case_match; simplify_eq;
  repeat match goal with
    | E : blocked _ = true |- _ =>
        apply bool_decide_eq_true_1 in E; try rewrite (wake_blocked _ E) in *
    | E : blocked _ = false |- _ => apply bool_decide_eq_false_1 in E
    | E : _ && _ = true |- _ => apply andb_true_iff in E as [? ?]
    | E : _ && _ = false |- _ => apply andb_false_iff in E
    | E : negb _ = true |- _ => apply negb_true_iff in E
    | E : negb _ = false |- _ => apply negb_false_iff in E
    | E : (_ <? _) = true |- _ => apply Z.ltb_lt in E
    | E : (_ <? _) = false |- _ => apply Z.ltb_ge in E
    | E : (_ =? _) = true |- _ => apply Z.eqb_eq in E
    | E : (_ =? _) = false |- _ => apply Z.eqb_neq in E
    end.

(** Which thread a lookup after a step finds: the one that moved, a new
    one, or an old one. *)
Ltac thread_lookup Hl :=
  simpl in Hl;
  first
    [ apply list_lookup_insert_Some in Hl as [(-> & <- & _) | (? & Hl)]
    | apply lookup_snoc_Some in Hl as [(_ & Hl) | (-> & <-)]
    | apply list_lookup_fmap_Some in Hl as (? & -> & Hl)
    | idtac ].

(** Reduce the field projections of an updated state, and nothing else. *)
Ltac fields :=
  unfold addWorkerWithWork, addWorker, notify_all, set_thread, emit,
    set_threads, set_client, set_promises, set_mem, upd_pool, set_nWorker,
    set_nWaiting, set_nWorking, set_workers, set_qWork, set_queueMutex,
    set_quit, set_pc, set_lifeCount, set_workItem, set_resultVar in *;
  cbn [pl threads client promises mem log nWorker nWaiting nWorking workers
       qWork queueMutex lifeTime maxWorker quit pc lifeCount workItem
       resultVar budget overflow] in *.

(** ** Construction and runs *)

Section Basics.
Context {Item Out : Type}.
Variable handler : Item → Out.
Variable header : flavour.

Local Abbreviation state := (state Item Out).

(** What the constructor leaves behind. *)
Lemma construct_fields iw mw lt :
  let s : state := construct iw mw lt in
  pl s = mkPool 0 0 0 (seq 0 (Z.to_nat iw)) [] None lt mw false ∧
  threads s = replicate (Z.to_nat iw) (mkWorker WtEnter lt None None lt false) ∧
  client s = CIdle ∧ promises s = [] ∧ mem s = ∅ ∧ log s = [].
Proof.
  unfold construct. cbv zeta. induction (Z.to_nat iw) as [|n IH]; [done|].
  rewrite Nat.iter_succ.
  set (s0 := Nat.iter n _ _) in *.
  destruct IH as (H1 & H2 & H3 & H4 & H5 & H6).
  rewrite seq_S, replicate_S_end.
  unfold addWorker, upd_pool, set_threads, set_workers.
  cbn [pl threads client promises mem log].
  rewrite H1, H2, H3, H4, H5, H6. cbn.
  by rewrite length_replicate.
Qed.

(** Every state on a schedule that runs is reachable. *)
Lemma reachable_run iw mw lt tr :
  ∀ s s' : state, reachable handler header iw mw lt s →
          run handler header s tr = Some s' →
          reachable handler header iw mw lt s'.
Proof.
  induction tr as [|a tr IH]; intros s s' Hr Hrun; simpl in Hrun.
  - by simplify_eq.
  - destruct (step handler header s a) as [s1|] eqn:E; [|done].
    eapply IH; [|done]. by eapply reach_step.
Qed.

(** [lifeTime] and [maxWorker] are never assigned after construction. *)
Lemma config_reachable iw mw lt (s : state) :
  reachable handler header iw mw lt s →
  lifeTime (pl s) = lt ∧ maxWorker (pl s) = mw.
Proof.
  induction 1 as [|s a s' _ [IH1 IH2] Hs].
  - by destruct (construct_fields iw mw lt) as (-> & _).
  - step_inv Hs; simpl; try done.
    all: unfold notify_all; simpl; done.
Qed.


End Basics.

(** ** The three counters *)

Section Counters.
Context {Item Out : Type}.
Variable handler : Item → Out.
Variable header : flavour.

Local Abbreviation worker := (worker Item Out).
Local Abbreviation state := (state Item Out).

Lemma counted_wake (w : worker) : counted (wake w) = counted w.
Proof.
  unfold wake, blocked. case_bool_decide as E; [|done].
  unfold counted. simpl. by rewrite E.
Qed.

Lemma waiting_wake (w : worker) : waiting (wake w) = waiting w.
Proof.
  unfold wake, blocked. case_bool_decide as E; [|done].
  unfold waiting. simpl. by rewrite E.
Qed.

Lemma working_wake (w : worker) : working (wake w) = working w.
Proof.
  unfold wake, blocked. case_bool_decide as E; [|done].
  unfold working. simpl. by rewrite E.
Qed.

Lemma counters_ok_construct iw mw lt :
  counters_ok (construct iw mw lt : state).
Proof.
  unfold construct. induction (Z.to_nat iw) as [|n IH]; [done|].
  simpl. destruct IH as (H1 & H2 & H3). unfold counters_ok. simpl.
  rewrite !tally_app. simpl. rewrite !Z.add_0_r. done.
Qed.

Lemma counters_ok_step s a s' :
  counters_ok s → step handler header s a = Some s' → counters_ok s'.
Proof.
  intros (H1 & H2 & H3) Hs. unfold counters_ok.
  step_inv Hs; simpl;
    unfold addWorkerWithWork, notify_all, fetch_add, fetch_sub; simpl;
    rewrite ?H1, ?H2, ?H3, ?tally_app, ?wrap32_add_l, ?wrap32_sub_l;
    rewrite ?tally_fmap by
      (auto using counted_wake, waiting_wake, working_wake);
    repeat (erewrite tally_insert by eassumption);
    unfold counted, waiting, working; simpl;
    repeat match goal with E : pc _ = _ |- _ => rewrite E end; simpl;
    repeat split; f_equal; lia.
Qed.

Lemma counters_ok_reachable iw mw lt s :
  reachable handler header iw mw lt s → counters_ok s.
Proof.
  induction 1; eauto using counters_ok_construct, counters_ok_step.
Qed.

Lemma regions_nested (w : worker) :
  b2z (waiting w) + b2z (working w) ≤ b2z (counted w).
Proof. unfold waiting, working, counted. by destruct (pc w). Qed.

End Counters.

(** ** Life accounting *)

Section Life.
Context {Item Out : Type}.
Variable handler : Item → Out.
Variable header : flavour.

Local Abbreviation worker := (worker Item Out).
Local Abbreviation state := (state Item Out).

Lemma life_ok_quit q n (w : worker) : life_ok q n w → life_ok true n w.
Proof.
  unfold life_ok. intros (? & ? & H). repeat split; try done.
  destruct (pc w); intuition.
Qed.

Lemma life_ok_wake q n (w : worker) : life_ok q n w → life_ok q n (wake w).
Proof.
  unfold wake, blocked. case_bool_decide as E; [|done].
  unfold life_ok. simpl. by rewrite E.
Qed.

Lemma life_ok_wake_inv q n (w : worker) (s0 : state) :
  life_ok q n w ∧ budget w = (if overflow w then 10 else lifeTime (pl s0)) →
  life_ok q n (wake w) ∧
  budget (wake w) = (if overflow (wake w) then 10 else lifeTime (pl s0)).
Proof.
  intros [H ?]. split; [by apply life_ok_wake|].
  unfold wake. by destruct (blocked w).
Qed.

Lemma life_inv_construct iw mw lt : life_inv (construct iw mw lt : state).
Proof.
  destruct (construct_fields (Item:=Item) (Out:=Out) iw mw lt)
    as (H1 & H2 & _ & _ & _ & H6).
  split.
  - intros t w H. unfold calls. rewrite H1, H6. rewrite H2 in H.
    apply lookup_replicate in H as [-> _]. unfold life_ok. simpl.
    repeat split; lia.
  - intros t _. unfold calls. by rewrite H6.
Qed.

Lemma life_inv_step s a s' :
  life_inv s → step handler header s a = Some s' → life_inv s'.
Proof.
  intros [H1 H2] Hs. unfold life_inv, calls in *.
  step_inv Hs; simpl; unfold addWorkerWithWork, notify_all; simpl;
    rewrite ?length_insert, ?length_app, ?length_fmap;
    (split; [intros t' w' Hl; thread_lookup Hl
            | intros t' Hl; simpl in Hl]).
  all: try (rewrite tally_app; simpl).
  all: try match goal with
    | Ht : threads _ !! ?t = Some _, Hl : (_ ≤ ?t')%nat |- _ =>
        apply lookup_lt_Some in Ht;
        rewrite ?bool_decide_eq_false_2 by lia
    end.
  all: try (rewrite ?Z.add_0_r; apply H2; lia).
  all: rewrite ?bool_decide_eq_true_2, ?bool_decide_eq_false_2 by done;
       simpl; rewrite ?Z.add_0_r.
  all: try (apply life_ok_wake_inv; by apply H1).
  all: try match goal with
    | Hl : threads _ !! ?t' = Some ?w' |- life_ok _ (tally (is_call ?t') _) ?w' ∧ _ =>
        destruct (H1 _ _ Hl); split; eauto using life_ok_quit
    end.
  all: try match goal with
    | Ht : threads _ !! _ = Some _ |- _ =>
        destruct (H1 _ _ Ht) as [(? & ? & Hpc) ?]; unfold life_ok; simpl;
        repeat match goal with E : pc _ = _ |- _ => rewrite E in * end;
        simpl in *; try (split; [intuition (try lia)|done])
    end.
  all: try (split; [|done]; unfold life_ok; simpl; rewrite H2 by done;
            repeat split; lia).
  all: destruct_and?;
       repeat match goal with E : overflow _ = true |- _ => rewrite E end;
       simpl; try lia.
  all: repeat match goal with
         | E : negb _ = false |- _ => apply negb_false_iff in E
         | E : (_ <? _) = false |- _ => apply Z.ltb_ge in E
         end; auto with lia.
Qed.

Lemma life_inv_reachable iw mw lt s :
  reachable handler header iw mw lt s → life_inv s.
Proof. induction 1; eauto using life_inv_construct, life_inv_step. Qed.

End Life.

(** ** Order of service *)

Section Fifo.
Context {Item Out : Type}.
Variable handler : Item → Out.
Variable header : flavour.

Local Abbreviation worker := (worker Item Out).
Local Abbreviation state := (state Item Out).
Local Abbreviation event := (event Item Out).

Lemma pushes_snoc (l : list event) e : pushes (l ++ [e]) = pushes l ++ pushes [e].
Proof. unfold pushes. by rewrite flat_map_app. Qed.
Lemma pops_snoc (l : list event) e : pops (l ++ [e]) = pops l ++ pops [e].
Proof. unfold pops. by rewrite flat_map_app. Qed.
Lemma pops_by_snoc t (l : list event) e :
  pops_by t (l ++ [e]) = pops_by t l ++ pops_by t [e].
Proof. unfold pops_by. by rewrite flat_map_app. Qed.
Lemma loop_calls_snoc (l : list event) e :
  loop_calls (l ++ [e]) = loop_calls l ++ loop_calls [e].
Proof. unfold loop_calls. by rewrite flat_map_app. Qed.
Lemma loop_calls_by_snoc t (l : list event) e :
  loop_calls_by t (l ++ [e]) = loop_calls_by t l ++ loop_calls_by t [e].
Proof. unfold loop_calls_by. by rewrite flat_map_app. Qed.

Lemma pending_wake (w : worker) : pending (wake w) = pending w.
Proof.
  unfold wake, blocked. case_bool_decide as E; [|done].
  unfold pending. simpl. by rewrite E.
Qed.

Lemma fifo_inv_construct iw mw lt : fifo_inv (construct iw mw lt : state).
Proof.
  destruct (construct_fields (Item:=Item) (Out:=Out) iw mw lt)
    as (H1 & H2 & _ & _ & _ & H6).
  unfold fifo_inv. rewrite H1, H2, H6. simpl. split; [done|]. split; [|done].
  intros t w [-> _]%lookup_replicate. done.
Qed.

Lemma fifo_inv_step s a s' :
  fifo_inv s → step handler header s a = Some s' → fifo_inv s'.
Proof.
  intros (H1 & H2 & H3) Hs. unfold fifo_inv.
  step_inv Hs; fields;
    rewrite ?length_insert, ?length_app, ?length_fmap,
      ?pushes_snoc, ?pops_snoc;
    (split; [|split; [intros t' w' Hl; thread_lookup Hl
                     | intros t' Hl; cbn [length] in Hl]]);
    rewrite ?pops_by_snoc, ?loop_calls_by_snoc.
  all: cbn [pushes pops pops_by loop_calls_by flat_map app];
       rewrite ?app_nil_r.
  all: try match goal with
    | Ht : threads _ !! ?t = Some _, Hl : (_ ≤ ?t')%nat |- _ =>
        pose proof (lookup_lt_Some _ _ _ Ht);
        rewrite ?bool_decide_eq_false_2 by lia
    end.
  all: rewrite ?bool_decide_eq_true_2, ?bool_decide_eq_false_2 by done;
       rewrite ?app_nil_r, ?pending_wake.
  all: try done.
  all: try (by apply H2).
  all: try (by apply H3; lia).
  all: try match goal with
    | Ht : threads _ !! _ = Some ?w |- _ =>
        pose proof (H2 _ _ Ht) as Hw; unfold pending in Hw |- *;
        cbn [pc workItem] in *;
        repeat match goal with E : pc _ = _ |- _ => rewrite E in * end;
        repeat match goal with E : workItem _ = _ |- _ => rewrite E in * end;
        rewrite ?app_nil_r in *
    end.
  all: try done.
  all: try congruence.
  all: try (repeat match goal with E : qWork _ = _ |- _ => rewrite E end;
            rewrite ?app_nil_r; done).
  - by destruct (H3 (length (threads s))) as [-> ->].
  - by rewrite app_assoc, H1.
  - rewrite <- H1. rewrite <- app_assoc. simpl. congruence.
  - rewrite fmap_app, <- Hw. done.
Qed.

Lemma fifo_inv_reachable iw mw lt s :
  reachable handler header iw mw lt s → fifo_inv s.
Proof. induction 1; eauto using fifo_inv_construct, fifo_inv_step. Qed.

End Fifo.

(** ** The recheck after a wake-up *)

Section Recheck.
Context {Item Out : Type}.
Variable handler : Item → Out.
Variable header : flavour.

Local Abbreviation worker := (worker Item Out).
Local Abbreviation state := (state Item Out).




End Recheck.

(** ** The handler's return value in DynamicProcessPool.h *)

Section Discard.
Context {Item : Type}.

Local Abbreviation worker := (worker Item bool).
Local Abbreviation state := (state Item bool).

Lemma blocked_forget (w : worker) : blocked (forget_result w) = blocked w.
Proof. done. Qed.

Lemma forallb_forget (l : list worker) :
  forallb (λ w, negb (blocked w)) (forget_result <$> l)
  = forallb (λ w, negb (blocked w)) l.
Proof. induction l as [|w l IH]; csimpl; [done|]. by rewrite IH. Qed.

Lemma wake_forget (w : worker) :
  forget_result (wake w) = wake (forget_result w).
Proof. unfold wake. rewrite blocked_forget. by destruct (blocked w). Qed.

Lemma outside_doWork_step (h : Item → bool) (s s' : state) a :
  outside_doWork s → step h FireAndForget s a = Some s' → outside_doWork s'.
Proof.
  intros H Hs t' w' Hl. step_inv Hs; fields; thread_lookup Hl;
    try (by eapply H); try done.
  all: try match goal with
    | Ht : threads _ !! _ = Some ?w, E : pc ?w = _ |- _ =>
        by destruct (H _ _ Ht)
    end.
  all: unfold wake; destruct (blocked _); try done; by eapply H.
Qed.

Lemma outside_doWork_construct iw mw lt :
  outside_doWork (construct iw mw lt : state).
Proof.
  destruct (construct_fields (Item:=Item) (Out:=bool) iw mw lt)
    as (_ & H2 & _).
  intros t w H. rewrite H2 in H. by apply lookup_replicate in H as [-> _].
Qed.

Lemma forget_result_idemp (w : worker) :
  forget_result (forget_result w) = forget_result w.
Proof. done. Qed.

Lemma forget_value_idemp (e : event Item bool) :
  forget_value (forget_value e) = forget_value e.
Proof. by destruct e. Qed.

Lemma erase_idemp (s : state) : erase (erase s) = erase s.
Proof.
  unfold erase. simpl. rewrite <- !list_fmap_compose. f_equal.
  apply list_fmap_ext. intros _ e _. apply forget_value_idemp.
Qed.

Lemma erase_set_thread t w (s : state) :
  erase (set_thread t w s) = set_thread t (forget_result w) (erase s).
Proof. unfold erase, set_thread. simpl. by rewrite list_fmap_insert. Qed.

Lemma erase_emit e (s : state) :
  erase (emit e s) = emit (forget_value e) (erase s).
Proof. unfold erase, emit. simpl. by rewrite fmap_app. Qed.

Lemma erase_addWorkerWithWork n wp (s : state) :
  erase (addWorkerWithWork n wp s) = addWorkerWithWork n wp (erase s).
Proof.
  unfold erase, addWorkerWithWork. simpl. by rewrite fmap_app, length_fmap.
Qed.

Lemma erase_notify_all (s : state) :
  erase (notify_all s) = notify_all (erase s).
Proof.
  unfold erase, notify_all, set_threads. simpl.
  rewrite <- !list_fmap_compose. f_equal.
  apply list_fmap_ext. intros _ w _. apply wake_forget.
Qed.

Lemma erase_set_client c (s : state) :
  erase (set_client c s) = set_client c (erase s).
Proof. done. Qed.

Lemma erase_upd_pool f (s : state) :
  erase (upd_pool f s) = upd_pool f (erase s).
Proof. done. Qed.

Lemma erase_set_mem m (s : state) : erase (set_mem m s) = set_mem m (erase s).
Proof. done. Qed.

Ltac erase_norm :=
  rewrite ?erase_set_client, ?erase_upd_pool, ?erase_set_mem,
    ?erase_set_thread, ?erase_emit, ?erase_addWorkerWithWork,
    ?erase_notify_all, ?erase_idemp.

(** One step, seen through [erase], is the step of the erased state under
    the constant handler. *)
Lemma erase_step (h : Item → bool) (s : state) a :
  outside_doWork s →
  erase <$> step h FireAndForget s a
  = erase <$> step (λ _, false) FireAndForget (erase s) a.
Proof.
  intros Hout. destruct a as [c|pick|t|t]; unfold step.
  - unfold begin_call. cbn [erase client]. destruct (client s); try done.
    destruct c; cbn [fmap option_fmap option_map]; by erase_norm.
  - unfold client_step, notify_one, store. cbn [erase client pl threads mem].
    rewrite forallb_forget, list_lookup_fmap.
    destruct (client s); try done; repeat case_match; simplify_eq/=;
      cbn [fmap option_fmap option_map]; repeat erase_norm; try done.
    all: rewrite ?blocked_forget in *; try congruence.
    by rewrite !wake_forget.
  - cbn [erase threads]. rewrite list_lookup_fmap. destruct (threads s !! t) as [w|] eqn:Hw;
      [|done].
    destruct (Hout _ _ Hw). cbn [fmap option_fmap option_map].
    unfold worker_step. cbn [erase pl promises forget_result pc lifeCount
      workItem resultVar].
    destruct (pc w); try done; repeat case_match; simplify_eq/=;
      cbn [fmap option_fmap option_map]; repeat erase_norm; try done.
  - cbn [erase threads]. rewrite list_lookup_fmap.
    destruct (threads s !! t) as [w|]; [|done].
    cbn [fmap option_fmap option_map]. rewrite blocked_forget.
    destruct (blocked w); [|done]. cbn [fmap option_fmap option_map].
    erase_norm. by rewrite !wake_forget.
Qed.

Lemma outside_doWork_erase (s1 s2 : state) :
  erase s1 = erase s2 → outside_doWork s1 → outside_doWork s2.
Proof.
  intros E H t w2 Hw2.
  assert (threads (erase s2) !! t = Some (forget_result w2)) as Hf
    by (cbn; by rewrite list_lookup_fmap, Hw2).
  rewrite <- E in Hf. cbn in Hf. rewrite list_lookup_fmap in Hf.
  destruct (threads s1 !! t) as [w1|] eqn:Hw1; [|done].
  destruct (H _ _ Hw1). simplify_eq/=.
  assert (pc w1 = pc w2) as <- by (by destruct w1, w2; simplify_eq/=).
  done.
Qed.

(** Two pools that look the same take every step to pools that look the
    same, whatever their handlers return. *)
Lemma erase_lockstep (h1 h2 : Item → bool) (s1 s2 : state) a :
  erase s1 = erase s2 → outside_doWork s1 →
  erase <$> step h1 FireAndForget s1 a = erase <$> step h2 FireAndForget s2 a.
Proof.
  intros E H.
  rewrite (erase_step h1) by done.
  rewrite (erase_step h2) by (by eapply outside_doWork_erase).
  by rewrite E.
Qed.

Lemma erase_run (h1 h2 : Item → bool) tr :
  ∀ s1 s2 : state,
    erase s1 = erase s2 → outside_doWork s1 →
    erase <$> run h1 FireAndForget s1 tr = erase <$> run h2 FireAndForget s2 tr.
Proof.
  induction tr as [|a tr IH]; intros s1 s2 E H; cbn [run].
  - cbn. by rewrite E.
  - pose proof (erase_lockstep h1 h2 s1 s2 a E H) as Hstep.
    destruct (step h1 FireAndForget s1 a) as [s1'|] eqn:E1,
             (step h2 FireAndForget s2 a) as [s2'|] eqn:E2; try done.
    cbn [fmap option_fmap option_map] in Hstep.
    apply IH; [congruence|]. by eapply outside_doWork_step.
Qed.

End Discard.

(** ** The test of enqueue *)

Section Enqueue.
Context {Item Out : Type}.
Variable handler : Item → Out.
Variable header : flavour.

Local Abbreviation state := (state Item Out).

Lemma spawn_condition_spec (p : pool Item) :
  spawn_condition p = true ↔ maxWorker p < nWorker p ∧ nWaiting p = 0.
Proof.
  unfold spawn_condition. rewrite andb_true_iff, Z.ltb_lt, Z.eqb_eq. done.
Qed.

(** The two loads of the test, one step each. *)
Lemma enqueue_tests (s : state) wp pick :
  (client s = EnqTestWorker wp →
   step handler header s (AClient pick)
   = Some (set_client (if maxWorker (pl s) <? nWorker (pl s)
                       then EnqTestWaiting wp else EnqLock wp) s)) ∧
  (client s = EnqTestWaiting wp →
   step handler header s (AClient pick)
   = Some (set_client (if nWaiting (pl s) =? 0
                       then EnqSpawn wp else EnqLock wp) s)).
Proof.
  split; intros H; unfold step, client_step; rewrite H; by case_match.
Qed.

(** Left alone for its two loads, [enqueue] reaches [addWorkerWithWork]
    exactly when [maxWorker < nWorker] and [nWaiting = 0]. *)
Lemma enqueue_spawns_iff (s : state) wp p1 p2 :
  client s = EnqTestWorker wp →
  run handler header s [AClient p1; AClient p2]
  = Some (set_client (EnqSpawn wp) s)
  ↔ maxWorker (pl s) < nWorker (pl s) ∧ nWaiting (pl s) = 0.
Proof.
  intros H. rewrite <- spawn_condition_spec. unfold spawn_condition.
  cbn [run]. rewrite (proj1 (enqueue_tests s wp p1) H).
  destruct (maxWorker (pl s) <? nWorker (pl s)).
  - rewrite (proj2 (enqueue_tests _ wp p2)) by done. cbn [set_client pl].
    destruct (nWaiting (pl s) =? 0); [done|]. by split.
  - unfold step, client_step. cbn [set_client client pl]. split; [|done].
    by destruct (queueMutex (pl s)).
Qed.

(** Once every thread has retired, nothing but the caller can move, and the
    caller never starts a thread: the queue only grows and the handler is
    not entered again. *)
Lemma stalled_step (s s' : state) a :
  stalled s → step handler header s a = Some s' →
  stalled s' ∧ threads s' = threads s ∧
  loop_calls (log s') = loop_calls (log s) ∧
  qWork (pl s) `prefix_of` qWork (pl s').
Proof.
  intros (H1 & H2 & H3 & H4) Hs.
  assert (wake <$> threads s = threads s) as Hwake.
  { apply list_eq. intros t. rewrite list_lookup_fmap.
    destruct (threads s !! t) as [w|] eqn:E; [|done]. simpl. f_equal.
    unfold wake, blocked. by rewrite (H1 _ _ E). }
  destruct a as [c|pick|t|t].
  - unfold step, begin_call in Hs. destruct (client s) eqn:Ec; try done.
    destruct c, header; simplify_eq; unfold stalled; fields; done.
  - unfold step, client_step, notify_one, store in Hs.
    assert (∀ c, match c with
                 | EnqTestWaiting _ | EnqSpawn _ => False
                 | _ => True
                 end →
                 stalled (set_client c s) ∧ threads s = threads s ∧
                 loop_calls (log s) = loop_calls (log s) ∧
                 qWork (pl s) `prefix_of` qWork (pl s)) as Hsame
      by (intros c Hc; unfold stalled; fields; done).
    destruct (client s) eqn:Ec; try done; repeat case_match; simplify_eq;
      try (by apply Hsame); try lia.
    all: try match goal with
      | Ht : threads _ !! _ = Some ?w, E : blocked ?w = true |- _ =>
          unfold blocked in E; rewrite (H1 _ _ Ht) in E; discriminate
      end.
    all: unfold stalled; fields; rewrite ?loop_calls_snoc, ?app_nil_r,
           ?Hwake, ?Ec; try done.
    repeat split; try done. by apply prefix_app_r.
  - unfold step in Hs. destruct (threads s !! t) as [w|] eqn:E; [|done].
    unfold worker_step in Hs. by rewrite (H1 _ _ E) in Hs.
  - unfold step in Hs. destruct (threads s !! t) as [w|] eqn:E; [|done].
    unfold blocked in Hs. by rewrite (H1 _ _ E) in Hs.
Qed.

Lemma stalled_run (tr : list (action Item)) :
  ∀ s s' : state,
    stalled s → run handler header s tr = Some s' →
    stalled s' ∧ threads s' = threads s ∧
    loop_calls (log s') = loop_calls (log s) ∧
    qWork (pl s) `prefix_of` qWork (pl s').
Proof.
  induction tr as [|a tr IH]; intros s s' H Hrun; cbn [run] in Hrun.
  - by simplify_eq.
  - destruct (step handler header s a) as [s1|] eqn:E; [|done].
    destruct (stalled_step _ _ _ H E) as (H1 & H2 & H3 & H4).
    destruct (IH _ _ H1 Hrun) as (? & ? & ? & ?).
    split; [done|]. split; [congruence|]. split; [congruence|]. by etrans.
Qed.

End Enqueue.

(** ** Promises handed to an overflow worker *)

Section Orphan.
Context {Item Out : Type}.
Variable handler : Item → Out.
Variable header : flavour.

Local Abbreviation state := (state Item Out).

Lemma in_hand_wake (w : worker Item Out) : in_hand (pc (wake w)) = in_hand (pc w).
Proof.
  unfold wake, blocked. case_bool_decide as E; [|done]. simpl. by rewrite E.
Qed.

Lemma workItem_wake (w : worker Item Out) : workItem (wake w) = workItem w.
Proof. unfold wake. by destruct (blocked w). Qed.

Lemma orphan_step i (s s' : state) a :
  orphan i s → step handler header s a = Some s' → orphan i s'.
Proof.
  intros (H1 & H2 & H3 & H4) Hs.
  pose proof (lookup_lt_Some _ _ _ H1) as Hlt.
  destruct a as [c|pick|t|t].
  - unfold step, begin_call in Hs. destruct (client s) eqn:Ec; try done.
    destruct c, header; simplify_eq; unfold orphan; fields;
      (split; [by rewrite ?lookup_app_l by done|]);
      (split; [done|]); (split; [done|]); intros wp' ?; simplify_eq/=;
      try done.
    intros [= E]. lia.
  - unfold step, client_step, notify_one, store in Hs.
    destruct (client s) eqn:Ec; try done; repeat case_match; simplify_eq;
      unfold orphan; fields.
    all: (split; [done|]).
    all: (split;
           [first [done
                  |intros wp0 [?|E%list_elem_of_singleton]%elem_of_app;
                   [by apply H2|subst; by apply H4]]|]).
    all: (split; [|try done; try (by intros wp0 [= <-]; apply H4)]).
    all: try done.
    all: try (by rewrite Ec).
    all: intros t' w' wp' Hl Hh Hw; thread_lookup Hl; simplify_eq/=;
         rewrite ?in_hand_wake, ?workItem_wake in *; try (by eapply H3).
  - unfold step in Hs. destruct (threads s !! t) as [w|] eqn:Ew; [|done].
    unfold worker_step in Hs.
    destruct (pc w) eqn:Epc; repeat case_match; simplify_eq;
      unfold orphan; fields.
    all: (split; [first [done|rewrite list_lookup_insert_ne; [done|]]|]).
    all: try (intros ->; eapply H3; [done|by rewrite Epc|done..]).
    all: (split; [|split; [|done]]).
    all: try done.
    all: try (intros wp' Hin; apply H2;
              match goal with E : qWork _ = _ |- _ => rewrite E end;
              by apply list_elem_of_further).
    all: try (intros t' w' wp' Hl Hh Hw; thread_lookup Hl; simplify_eq/=;
              first [by eapply H3|eapply H3; [done|by rewrite Epc|done..]]).
    all: try (intros wp' Hin;
              match goal with E : qWork _ = _ |- _ => rewrite E in Hin end;
              by apply H2).
    + intros wp' Hin. apply H2. by apply list_elem_of_further.
    + intros t' w' wp' Hl Hh Hw; thread_lookup Hl; simplify_eq/=;
        [|by eapply H3]. apply H2. by apply list_elem_of_here.
  - unfold step in Hs. destruct (threads s !! t) as [w|] eqn:Ew; [|done].
    destruct (blocked w) eqn:Eb; [|done]. simplify_eq.
    unfold orphan; fields. repeat split; try done.
    intros t' w' wp' Hl Hh Hw; thread_lookup Hl; simplify_eq/=;
      rewrite ?in_hand_wake, ?workItem_wake in *; by eapply H3.
Qed.

Lemma orphan_run i (tr : list (action Item)) :
  ∀ s s' : state,
    orphan i s → run handler header s tr = Some s' → orphan i s'.
Proof.
  induction tr as [|a tr IH]; intros s s' H Hrun; cbn [run] in Hrun.
  - by simplify_eq.
  - destruct (step handler header s a) as [s1|] eqn:E; [|done].
    eauto using orphan_step.
Qed.

End Orphan.

(** ** After kill() has returned *)

Section Shutdown.
Context {Item Out : Type}.
Variable handler : Item → Out.
Variable header : flavour.

Local Abbreviation state := (state Item Out).

Lemma kill_inv_step (s s' : state) a :
  kill_inv s → step handler header s a = Some s' → kill_inv s'.
Proof.
  unfold kill_inv. intros H Hs.
  step_inv Hs; fields; try done;
    try (match goal with E : client _ = _ |- _ => rewrite E in H; by apply H end).
  intros _. by apply H.
Qed.

Lemma kill_inv_reachable iw mw lt (s : state) :
  reachable handler header iw mw lt s → kill_inv s.
Proof.
  induction 1 as [|s a s' _ IH Hs]; [|by eapply kill_inv_step].
  destruct (construct_fields (Item:=Item) (Out:=Out) iw mw lt)
    as (_ & _ & H & _).
  unfold kill_inv. by rewrite H.
Qed.

(** The step on which [kill()] returns. *)
Lemma kill_returns_drained iw mw lt (s s' : state) spincount pick :
  reachable handler header iw mw lt s →
  tally counted (threads s) < 2 ^ 31 →
  client s = KillSpin spincount →
  step handler header s (AClient pick) = Some s' → client s' = CIdle →
  drained s' ∧ nWorker (pl s') = 0 ∧ qWork (pl s') = qWork (pl s) ∧
  log s' = log s ++ [EvKillReturn].
Proof.
  intros Hr Hb Hc Hs Hc'.
  pose proof (kill_inv_reachable _ _ _ _ Hr) as Hk. unfold kill_inv in Hk.
  rewrite Hc in Hk. specialize (Hk eq_refl).
  destruct (counters_ok_reachable _ _ _ _ _ _ Hr) as (Hn & _).
  pose proof (tally_nonneg counted (threads s)) as Hnn.
  rewrite wrap32_id in Hn by lia.
  unfold step, client_step in Hs. rewrite Hc in Hs.
  destruct (0 <? nWorker (pl s)) eqn:E.
  - destruct (negb (spincount =? 0)); simplify_eq/=; congruence.
  - apply Z.ltb_ge in E. simplify_eq. fields.
    assert (tally counted (threads s) = 0) as Hz by lia.
    repeat split; try done; [|lia].
    intros t w Hw. pose proof (tally_zero _ _ _ _ Hz Hw) as Hf.
    unfold counted in Hf. unfold outside_body. by destruct (pc w).
Qed.

(** From then on no thread enters the body of the loop: nothing is popped
    and the loop does not enter the handler. *)
Lemma drained_step (s s' : state) a :
  drained s → step handler header s a = Some s' →
  drained s' ∧ pops (log s') = pops (log s) ∧
  loop_calls (log s') = loop_calls (log s) ∧
  qWork (pl s) `prefix_of` qWork (pl s').
Proof.
  intros [Hq H] Hs.
  assert (∀ t w, threads s !! t = Some w → outside_body (pc (wake w)) = true)
    as Hwake.
  { intros t w Hw. unfold wake, blocked. case_bool_decide as E; [|by eapply H].
    apply H in Hw. by rewrite E in Hw. }
  unfold drained.
  step_inv Hs; fields; rewrite ?pops_snoc, ?loop_calls_snoc, ?app_nil_r;
    try match goal with
      | Ht : threads _ !! _ = Some ?w, E : pc ?w = _ |- _ =>
          let Hx := fresh in
          pose proof (H _ _ Ht) as Hx; rewrite E in Hx; discriminate
      end;
    (split; [split; [done|]|]).
  all: try (split; [done|]; split; [done|]; first [done|by apply prefix_app_r]).
  all: try (intros t' w' Hl; thread_lookup Hl; simplify_eq/=;
            by eauto).
Qed.

Lemma drained_run (tr : list (action Item)) :
  ∀ s s' : state,
    drained s → run handler header s tr = Some s' →
    drained s' ∧ pops (log s') = pops (log s) ∧
    loop_calls (log s') = loop_calls (log s) ∧
    qWork (pl s) `prefix_of` qWork (pl s').
Proof.
  induction tr as [|a tr IH]; intros s s' H Hrun; cbn [run] in Hrun.
  - by simplify_eq.
  - destruct (step handler header s a) as [s1|] eqn:E; [|done].
    destruct (drained_step _ _ _ H E) as (H1 & H2 & H3 & H4).
    destruct (IH _ _ H1 Hrun) as (? & ? & ? & ?).
    split; [done|]. split; [congruence|]. split; [congruence|]. by etrans.
Qed.

(** What does hold of [kill()]: on the step on which it returns [nWorker]
    reads zero, and from then on nothing is taken from the queue and the
    loop of [workthread] does not enter the handler, so what is queued at
    that moment is never executed. *)
Lemma no_dequeue_after_kill_returned iw mw lt (s s' : state) spincount pick :
  reachable handler header iw mw lt s →
  tally counted (threads s) < 2 ^ 31 →
  client s = KillSpin spincount →
  step handler header s (AClient pick) = Some s' → client s' = CIdle →
  nWorker (pl s') = 0 ∧
  ∀ tr s'', run handler header s' tr = Some s'' →
            pops (log s'') = pops (log s') ∧
            loop_calls (log s'') = loop_calls (log s') ∧
            qWork (pl s') `prefix_of` qWork (pl s'').
Proof.
  intros Hr Hb Hc Hs Hc'.
  destruct (kill_returns_drained _ _ _ _ _ _ _ Hr Hb Hc Hs Hc')
    as (Hd & Hn & _).
  split; [done|]. intros tr s'' Hrun.
  by destruct (drained_run _ _ _ Hd Hrun) as (_ & ? & ? & ?).
Qed.

End Shutdown.

(** * Further lemmas *)

(** ** More on counting *)

Lemma tally_replicate_false {A} (f : A → bool) n x :
  f x = false → tally f (replicate n x) = 0.
Proof. intros E. induction n as [|n IH]; simpl; [done|]. by rewrite E, IH. Qed.

Lemma tally_lookup_le {A} (f : A → bool) (l : list A) i x :
  l !! i = Some x → b2z (f x) ≤ tally f l.
Proof.
  revert i. induction l as [|y l IH]; intros [|i] H; simplify_eq/=.
  - pose proof (tally_nonneg f l). lia.
  - specialize (IH _ H). destruct (f y); simpl; lia.
Qed.

Lemma tally_pos_lookup {A} (f : A → bool) (l : list A) :
  0 < tally f l → ∃ i x, l !! i = Some x ∧ f x = true.
Proof.
  induction l as [|y l IH]; simpl; [lia|]. intros H.
  destruct (f y) eqn:E.
  - by exists 0%nat, y.
  - destruct IH as (i & x & ? & ?); [simpl in H; lia|]. by exists (S i), x.
Qed.

Lemma tally_all_false {A} (f : A → bool) (l : list A) :
  (∀ i x, l !! i = Some x → f x = false) → tally f l = 0.
Proof.
  induction l as [|y l IH]; intros H; simpl; [done|].
  rewrite (H 0%nat y eq_refl), IH; [done|].
  intros i x Hl. by apply (H (S i)).
Qed.

(** ** The mutex *)

Section Mutex.
Context {Item Out : Type}.
Variable handler : Item → Out.
Variable header : flavour.

Local Abbreviation worker := (worker Item Out).
Local Abbreviation state := (state Item Out).

Lemma holds_lock_wake (w : worker) :
  holds_lock (pc (wake w)) = holds_lock (pc w).
Proof.
  unfold wake, blocked. case_bool_decide as E; [|done]. simpl. by rewrite E.
Qed.

Lemma mutex_inv_construct iw mw lt : mutex_inv (construct iw mw lt : state).
Proof.
  destruct (construct_fields (Item:=Item) (Out:=Out) iw mw lt)
    as (H1 & H2 & H3 & _).
  unfold mutex_inv, locked. rewrite H1, H2, H3. simpl. split; [|split].
  - intros t w [-> _]%lookup_replicate. done.
  - done.
  - by rewrite tally_replicate_false.
Qed.

Lemma mutex_inv_step s a s' :
  mutex_inv s → step handler header s a = Some s' → mutex_inv s'.
Proof.
  intros (H1 & H2 & H3) Hs. unfold mutex_inv.
  step_inv Hs; unfold locked in *; fields.
  (* what the thread that moves knows about the mutex *)
  all: try match goal with
    | E : client _ = _ |- _ =>
        rewrite E in H2, H3; cbn [client_locks] in H2, H3
    end.
  all: try (assert (Hm := H2 eq_refl)).
  all: try match goal with
    | Ht : threads _ !! _ = Some ?w, E : pc ?w = _ |- _ =>
        assert (Hm := H1 _ _ Ht); rewrite E in Hm; specialize (Hm eq_refl)
    end.
  all: repeat match goal with
    | E : queueMutex _ = _ |- _ => progress (try rewrite E in H3)
    end.
  all: (split; [intros t' w' Hl Hh; thread_lookup Hl; simplify_eq/=
               |split; [intros Hc; simplify_eq/=|]]).
  all: rewrite ?holds_lock_wake in *.
  all: try done.
  all: try (by eapply H1).
  all: try (by apply H2).
  all: try (specialize (H2 Hc); congruence).
  all: try (specialize (H1 _ _ Hl Hh); congruence).
  all: rewrite ?tally_app, ?(tally_fmap _ _ _ holds_lock_wake);
       repeat (erewrite tally_insert by eassumption);
       cbn [tally pc client_locks b2z holds_lock];
       repeat match goal with E : pc _ = _ |- _ => rewrite E end;
       cbn [tally pc client_locks b2z holds_lock] in *; try lia.
  all: try (rewrite Hm; cbn [b2z]; lia).
  - by rewrite H0 in Hc.
  - rewrite H0. cbn [client_locks b2z]. lia.
Qed.

Lemma mutex_inv_reachable iw mw lt s :
  reachable handler header iw mw lt s → mutex_inv s.
Proof. induction 1; eauto using mutex_inv_construct, mutex_inv_step. Qed.

End Mutex.

(** ** Items in flight *)

Lemma flat_map_insert_perm {A B} (f : A → list B) (l : list A) i x y :
  l !! i = Some y →
  flat_map f (<[i := x]> l) ++ f y ≡ₚ flat_map f l ++ f x.
Proof.
  revert i. induction l as [|z l IH]; intros [|i] H; simplify_eq/=.
  - rewrite <- !app_assoc.
    rewrite (Permutation_app_comm (f x)), (Permutation_app_comm (f y)).
    rewrite <- !app_assoc. apply Permutation_app_head, Permutation_app_comm.
  - rewrite <- !app_assoc. apply Permutation_app_head. by apply IH.
Qed.

Lemma flat_map_insert_same {A B} (f : A → list B) (l : list A) i x y :
  l !! i = Some y → f x = f y → flat_map f (<[i := x]> l) = flat_map f l.
Proof.
  revert i. induction l as [|z l IH]; intros [|i] H E; simplify_eq/=.
  - by rewrite E.
  - by rewrite (IH i).
Qed.

Section InFlight.
Context {Item Out : Type}.
Variable handler : Item → Out.
Variable header : flavour.

Local Abbreviation worker := (worker Item Out).
Local Abbreviation state := (state Item Out).

Lemma in_flight_wake (l : list worker) :
  flat_map pending (wake <$> l) = flat_map pending l.
Proof.
  induction l as [|w l IH]; csimpl; [done|]. by rewrite pending_wake, IH.
Qed.

Lemma handled_once_step s a s' :
  handled_once s → step handler header s a = Some s' → handled_once s'.
Proof.
  intros H Hs. unfold handled_once, in_flight in *.
  step_inv Hs; fields;
    rewrite ?pops_snoc, ?loop_calls_snoc, ?flat_map_app, ?in_flight_wake;
    cbn [pops loop_calls flat_map pending pc workItem app];
    rewrite ?app_nil_r; try done.
  all: try (erewrite flat_map_insert_same; [done..|];
            unfold pending; cbn [pc workItem];
            by repeat match goal with E : pc _ = _ |- _ => rewrite E end).
  - pose proof (flat_map_insert_perm pending _ _
                  (mkWorker WtUnlock (lifeCount w) (Some w0) (resultVar w)
                     (budget w) (overflow w)) _ H1) as Hp.
    unfold pending at 2 3 in Hp. rewrite H2 in Hp. cbn in Hp.
    rewrite app_nil_r in Hp. rewrite fmap_app, Hp, app_assoc, H. done.
  - pose proof (flat_map_insert_perm pending _ _
                  (mkWorker WtRun (lifeCount w) (workItem w) (resultVar w)
                     (budget w) (overflow w)) _ H1) as Hp.
    unfold pending at 2 3 in Hp. rewrite H2, H3 in Hp. cbn in Hp.
    rewrite app_nil_r in Hp. rewrite H3, <- app_assoc.
    rewrite (Permutation_app_comm [item w0]), Hp. done.
Qed.

Lemma handled_once_reachable iw mw lt s :
  reachable handler header iw mw lt s → handled_once s.
Proof.
  induction 1 as [|s a s' _ IH Hs]; [|by eapply handled_once_step].
  destruct (construct_fields (Item:=Item) (Out:=Out) iw mw lt)
    as (_ & H2 & _ & _ & _ & H6).
  unfold handled_once, in_flight. rewrite H2, H6.
  assert (∀ n (w : worker), pending w = [] →
                             flat_map pending (replicate n w) = []) as ->.
  { intros n w E. induction n as [|n IHn]; cbn; [done|]. by rewrite E. }
  all: done.
Qed.

End InFlight.

(** ** Promises on the queue path *)

Section Pairs.
Context {Item Out : Type}.
Variable handler : Item → Out.

Local Abbreviation worker := (worker Item Out).
Local Abbreviation state := (state Item Out).

Lemma pairs_inv_construct iw mw lt :
  pairs_inv handler (construct iw mw lt : state).
Proof.
  destruct (construct_fields (Item:=Item) (Out:=Out) iw mw lt)
    as (H1 & H2 & H3 & _ & _ & H6).
  unfold pairs_inv. rewrite H1, H2, H3, H6. cbn. repeat split.
  - by intros wp ?%elem_of_nil.
  - by intros t w [-> _]%lookup_replicate.
  - done.
  - by intros t i v ?%elem_of_nil.
Qed.

Lemma pairs_inv_step s a s' :
  pairs_inv handler s → step handler WithFuture s a = Some s' →
  pairs_inv handler s'.
Proof.
  intros (H1 & H2 & H3 & H4) Hs. unfold pairs_inv.
  step_inv Hs; fields.
  all: (split; [intros wp' Hin
               |split; [intros t' w' Hl Hh; thread_lookup Hl; simplify_eq/=
                       |split; [intros wp' Hsub; simplify_eq/=
                               |intros t' i' v' Hin]]]).
  all: try done.
  all: try (by apply H1).
  all: try (by eapply H2).
  all: try (by eapply H3).
  all: try (by eapply H4).
  all: rewrite ?in_hand_wake in *.
  (* old facts about the history stay true when it grows *)
  all: try (apply elem_of_app in Hin as [Hin|Hin%list_elem_of_singleton];
            [apply H4 in Hin as (wp0 & ? & ? & ?); exists wp0;
             rewrite ?elem_of_app; by auto|]; try done).
  all: try (match goal with
            | Hl : threads _ !! ?t' = Some ?w' |- ∃ _, workItem ?w' = _ ∧ _ =>
                destruct (H2 _ _ Hl Hh) as (wp0 & ? & ? & ? & ?); exists wp0;
                rewrite ?elem_of_app; by auto
            end).
  (* the thread that moves *)
  all: try match goal with
    | Ht : threads _ !! _ = Some ?w, E : pc ?w = _ |- _ =>
        assert (Hw := H2 _ _ Ht); rewrite E in Hw; specialize (Hw eq_refl);
        destruct Hw as (wp0 & Hwi & Hres & Hpop & Hval)
    end.
  all: try (exists wp0; rewrite ?elem_of_app; split; [congruence|];
            split; [done|]; split; [by auto|]; intros [?|?]; try done;
            first [by apply Hval; auto|congruence]).
  all: try (match goal with E : qWork _ = _ |- _ => rewrite E in * end;
            first [by apply H1
                  |apply H1; by apply list_elem_of_further]).
  all: try (by apply elem_of_nil in Hin).
  all: try (apply elem_of_app in Hin as [?|E%list_elem_of_singleton];
            [by apply H1|subst; by apply H3]).
  - assert (wake x = x) as ->; [|by eapply H2].
    unfold wake, blocked. case_bool_decide as E; [|done]. by rewrite E in Hh.
  - match goal with E : client _ = _ |- _ => rewrite E in Hsub end. done.
  - apply H1. by apply list_elem_of_further.
  - exists w0. rewrite elem_of_app, list_elem_of_singleton.
    split; [done|]. split; [|split; [by right|by intros [?|?]]].
    apply H1. apply list_elem_of_here.
  - simplify_eq. exists w0. rewrite elem_of_app.
    split; [by left|]. split; [congruence|].
    specialize (Hval (or_introl eq_refl)). congruence.
Qed.

Lemma pairs_inv_reachable iw mw lt s :
  reachable handler WithFuture iw mw lt s → pairs_inv handler s.
Proof.
  induction 1 as [|s a s' _ IH Hs]; [apply pairs_inv_construct|].
  by eapply pairs_inv_step.
Qed.

End Pairs.

Lemma lookup_snoc_cases {A} (l : list A) x i :
  (l ++ [x]) !! i = if bool_decide (i = length l) then Some x else l !! i.
Proof.
  case_bool_decide as E.
  - subst. by rewrite lookup_app_r, Nat.sub_diag by lia.
  - destruct (decide (i < length l)%nat).
    + by rewrite lookup_app_l by done.
    + rewrite !(proj2 (lookup_ge_None _ _)); [done|lia|].
      rewrite length_app. simpl. lia.
Qed.

(** ** Ownership of the promises *)

Section Promises.
Context {Item Out : Type}.
Variable handler : Item → Out.
Variable header : flavour.

Local Abbreviation worker := (worker Item Out).
Local Abbreviation state := (state Item Out).

Lemma holds_empty_wake i (w : worker) :
  holds_empty i (wake w) = holds_empty i w.
Proof.
  unfold wake, blocked, holds_empty. case_bool_decide as E; [|done].
  simpl. by rewrite E.
Qed.

Lemma holds_full_wake i (w : worker) :
  holds_full i (wake w) = holds_full i w.
Proof.
  unfold wake, blocked, holds_full. case_bool_decide as E; [|done].
  simpl. by rewrite E.
Qed.

Lemma promise_inv_construct iw mw lt : promise_inv (construct iw mw lt : state).
Proof.
  destruct (construct_fields (Item:=Item) (Out:=Out) iw mw lt)
    as (H1 & H2 & H3 & H4 & _ & H6).
  intros i. unfold owners_empty, owners_full, submits.
  rewrite H1, H2, H3, H4, H6. cbn.
  rewrite !tally_replicate_false by done. repeat split; lia.
Qed.

Lemma promise_inv_step s a s' :
  promise_inv s → step handler header s a = Some s' → promise_inv s'.
Proof.
  intros Hinv Hs i. destruct (Hinv i) as (Ha & Hb & Hc & Hd).
  unfold owners_empty, owners_full in *.
  pose proof (tally_nonneg (points i) (qWork (pl s))) as Nq.
  pose proof (tally_nonneg (holds_empty i) (threads s)) as Ne.
  pose proof (tally_nonneg (holds_full i) (threads s)) as Nf.
  assert (0 ≤ b2z (submits i (client s))) as Nc
    by (destruct (submits _ _); simpl; lia).
  step_inv Hs; fields.
  all: try match goal with
    | Ht : threads _ !! _ = Some _ |- _ =>
        pose proof (tally_lookup_le (holds_empty i) _ _ _ Ht) as Le;
        pose proof (tally_lookup_le (holds_full i) _ _ _ Ht) as Lf
    end.
  all: rewrite ?tally_app, ?(tally_fmap _ _ _ (holds_empty_wake i)),
         ?(tally_fmap _ _ _ (holds_full_wake i));
       repeat (erewrite tally_insert by eassumption).
  all: set (TE := tally (holds_empty i) (threads _)) in *;
       set (TF := tally (holds_full i) (threads _)) in *.
  all: unfold submits, holds_empty, holds_full in *.
  all: repeat match goal with
    | E : client _ = _ |- _ => rewrite E in *
    | E : pc _ = _ |- _ => rewrite E in *
    | E : workItem _ = _ |- _ => rewrite E in *
    | E : qWork _ = _ |- _ => rewrite E in *
    end.
  all: cbn [submitting pc workItem tally b2z is_fulfil] in *.
  all: try (split; [lia|split; [intros; apply Hb; lia|split;
              [intros; apply Hc; lia|lia]]]).
  all: repeat match goal with
    | |- context [points ?j ?wp] =>
        let E := fresh "E" in
        destruct (points j wp) eqn:E; rewrite ?E in *; unfold points in E;
        [apply bool_decide_eq_true_1 in E|apply bool_decide_eq_false_1 in E]
    | H : context [points ?j ?wp] |- _ =>
        let E := fresh "E" in
        destruct (points j wp) eqn:E; rewrite ?E in *; unfold points in E;
        [apply bool_decide_eq_true_1 in E|apply bool_decide_eq_false_1 in E]
    end.
  all: cbn [b2z result] in *; simplify_eq.
  all: try (split; [lia|split; [intros; apply Hb; lia|split;
              [intros; apply Hc; lia|lia]]]).
  all: unfold empty_live, full_live, has_value in *.
  all: rewrite ?lookup_snoc_cases.
  all: rewrite ?list_lookup_insert_eq by (eapply lookup_lt_Some; eassumption).
  all: rewrite ?list_lookup_insert_ne by congruence.
  all: repeat case_bool_decide; simplify_eq.
  all: repeat match goal with E : promises _ !! _ = _ |- _ => rewrite E in * end.
  all: rewrite ?(proj2 (lookup_ge_None (promises _) (length (promises _))))
         in * by lia.
  all: cbn [b2z] in *.
  all: try (split; [lia|split; [intros; first [apply Hb; lia|done|lia]|split;
              [intros; first [apply Hc; lia|done|lia]|lia]]]).
Qed.

Lemma promise_inv_reachable iw mw lt s :
  reachable handler header iw mw lt s → promise_inv s.
Proof. induction 1; eauto using promise_inv_construct, promise_inv_step. Qed.

End Promises.

(** ** Values of the promises *)

Section Values.
Context {Item Out : Type}.
Variable handler : Item → Out.
Variable header : flavour.

Lemma value_logged iw mw lt (s : state Item Out) i p v :
  reachable handler header iw mw lt s →
  promises s !! i = Some p → value p = Some v →
  ∃ t, EvFulfil t i v ∈ log s.
Proof.
  intros Hr. revert i p v.
  induction Hr as [|s a s' _ IH Hs]; intros i p v Hp Hv.
  - destruct (construct_fields (Item:=Item) (Out:=Out) iw mw lt)
      as (_ & _ & _ & H4 & _). cbv zeta in H4. by rewrite H4 in Hp.
  - step_inv Hs; fields.
    all: try (by eapply IH).
    all: try (destruct (IH _ _ _ Hp Hv) as [t0 ?]; exists t0;
              rewrite elem_of_app; by left).
    + apply lookup_snoc_Some in Hp as [(_ & Hp)|(_ & <-)]; [by eapply IH|done].
    + apply list_lookup_insert_Some in Hp as [(-> & <- & _)|(? & Hp)].
      * simplify_eq/=. eexists. rewrite elem_of_app, list_elem_of_singleton.
        by right.
      * destruct (IH _ _ _ Hp Hv) as [t0 ?]. exists t0.
        rewrite elem_of_app. by left.
    + apply list_lookup_insert_Some in Hp as [(-> & <- & _)|(? & Hp)];
        [|by eapply IH].
      simpl in Hv. by eapply IH.
Qed.

End Values.

(** ** Once [quit] is set *)

Section Quit.
Context {Item Out : Type}.
Variable handler : Item → Out.
Variable header : flavour.

Local Abbreviation state := (state Item Out).

Lemma may_call_wake (w : worker Item Out) :
  may_call (pc (wake w)) = may_call (pc w).
Proof.
  unfold wake, blocked. case_bool_decide as E; [|done]. simpl. by rewrite E.
Qed.

Lemma quit_step (s s' : state) a :
  quit (pl s) = true → step handler header s a = Some s' →
  quit (pl s') = true ∧ ∀ t, calls_left t s' ≤ calls_left t s.
Proof.
  intros Hq Hs. unfold calls_left, calls in *.
  step_inv Hs; fields; try congruence.
  all: (split; [done|intros t']).
  all: rewrite ?tally_app; cbn [tally is_call b2z].
  all: try (destruct (threads _ !! t') eqn:Hl; lia).
  all: rewrite ?lookup_snoc_cases, ?list_lookup_fmap.
  all: try match goal with
    | Ht : threads _ !! ?t = Some _ |- context [<[?t := _]> _ !! ?u] =>
        pose proof (lookup_lt_Some _ _ _ Ht);
        destruct (decide (t = u)) as [<-|];
        [rewrite list_lookup_insert_eq by done; rewrite Ht
        |rewrite list_lookup_insert_ne by done]
    end.
  all: repeat case_bool_decide; simplify_eq.
  all: rewrite ?(proj2 (lookup_ge_None (threads _) (length (threads _))))
         by lia.
  all: repeat match goal with E : pc _ = _ |- _ => rewrite E end.
  all: cbn [pc may_call b2z].
  all: try (destruct (threads _ !! t') eqn:Hl; cbn [fmap option_fmap option_map];
            rewrite ?may_call_wake; lia).
  all: try lia.
Qed.

Lemma quit_run (tr : list (action Item)) :
  ∀ s s' : state,
    quit (pl s) = true → run handler header s tr = Some s' →
    quit (pl s') = true ∧ ∀ t, calls_left t s' ≤ calls_left t s.
Proof.
  induction tr as [|a tr IH]; intros s s' Hq Hrun; cbn [run] in Hrun.
  - by simplify_eq.
  - destruct (step handler header s a) as [s1|] eqn:E; [|done].
    destruct (quit_step _ _ _ Hq E) as [Hq1 H1].
    destruct (IH _ _ Hq1 Hrun) as [Hq' H']. split; [done|].
    intros t. specialize (H1 t). specialize (H' t). lia.
Qed.

Lemma log_grows_step (s s' : state) a :
  step handler header s a = Some s' → log s `prefix_of` log s'.
Proof.
  intros Hs. step_inv Hs; fields; first [done|by apply prefix_app_r].
Qed.

Lemma log_grows_run (tr : list (action Item)) :
  ∀ s s' : state, run handler header s tr = Some s' → log s `prefix_of` log s'.
Proof.
  induction tr as [|a tr IH]; intros s s' Hrun; cbn [run] in Hrun.
  - by simplify_eq.
  - destruct (step handler header s a) as [s1|] eqn:E; [|done].
    etrans; [by eapply log_grows_step|by apply IH].
Qed.

Lemma calls_prefix t (s s' : state) :
  log s `prefix_of` log s' → calls t s ≤ calls t s'.
Proof.
  intros [l E]. unfold calls. rewrite E, tally_app.
  pose proof (tally_nonneg (is_call t) l). lia.
Qed.

Lemma calls_left_bounds t (s : state) :
  calls t s ≤ calls_left t s ≤ calls t s + 1.
Proof.
  unfold calls_left. destruct (threads s !! t) as [w|]; [|lia].
  destruct (may_call (pc w)); simpl; lia.
Qed.

(** ** [kill()] waiting for a blocked worker *)

Lemma hung_step (s s' : state) a :
  hung s → is_spurious a = false → step handler header s a = Some s' →
  hung s' ∧ pl s' = pl s ∧ threads s' = threads s ∧ log s' = log s.
Proof.
  intros ([sc Hc] & Hn & Ht) Ha Hs. unfold hung.
  step_inv Hs; fields; try congruence; try lia.
  all: try match goal with
    | Hl : threads _ !! _ = Some ?w, E : pc ?w = _ |- _ =>
        destruct (Ht _ _ Hl); congruence
    end.
  all: (split; [split; [by eexists|done]|done]).
Qed.

Lemma hung_run (tr : list (action Item)) :
  ∀ s s' : state,
    hung s → forallb (λ a, negb (is_spurious a)) tr = true →
    run handler header s tr = Some s' →
    hung s' ∧ pl s' = pl s ∧ threads s' = threads s ∧ log s' = log s.
Proof.
  induction tr as [|a tr IH]; intros s s' H Hns Hrun; cbn [run] in Hrun.
  - by simplify_eq.
  - cbn [forallb] in Hns. apply andb_true_iff in Hns as [Ha Hns].
    apply negb_true_iff in Ha.
    destruct (step handler header s a) as [s1|] eqn:E; [|done].
    destruct (hung_step _ _ _ H Ha E) as (H1 & ? & ? & ?).
    destruct (IH _ _ H1 Hns Hrun) as (? & ? & ? & ?).
    split; [done|]. split; [congruence|]. split; congruence.
Qed.

End Quit.

(** ** The work item in hand *)

Section Work.
Context {Item Out : Type}.
Variable handler : Item → Out.
Variable header : flavour.

Local Abbreviation state := (state Item Out).

Lemma work_inv_construct iw mw lt : work_inv (construct iw mw lt : state).
Proof.
  destruct (construct_fields (Item:=Item) (Out:=Out) iw mw lt)
    as (_ & H2 & _).
  unfold work_inv. cbv zeta in H2. rewrite H2.
  split; by intros t w [-> _]%lookup_replicate.
Qed.

Lemma work_inv_step s a s' :
  mutex_inv s → work_inv s → step handler header s a = Some s' → work_inv s'.
Proof.
  intros (M1 & M2 & _) (H1 & H2) Hs. unfold work_inv.
  step_inv Hs; fields.
  all: (split; [intros t' w' Hl Hp|intros t' w' Hl Hh];
        thread_lookup Hl; simplify_eq/=).
  all: try done.
  all: try (by eapply H1). all: try (by eapply H2).
  all: try (by destruct (qWork (pl s))).
  all: try (match goal with E : qWork _ = _ :: _ |- _ ≠ [] => by rewrite E end).
  all: try match goal with
    | Ht : threads _ !! _ = Some ?w, E : pc ?w = _ |- is_Some (workItem ?w) =>
        apply (H2 _ _ Ht); by rewrite E
    end.
  all: try match goal with
    | Ht : threads _ !! ?t = Some ?w, E : pc ?w = WtPop,
      Hl : threads _ !! ?u = Some ?v, Hp : pc ?v = WtPop, Hne : ?t ≠ ?u |- _ =>
        let X := fresh in let Y := fresh in
        assert (X := M1 _ _ Ht); rewrite E in X; specialize (X eq_refl);
        assert (Y := M1 _ _ Hl); rewrite Hp in Y; specialize (Y eq_refl);
        congruence
    end.
  - apply (H1 _ _ Hl). unfold wake, blocked in Hp.
    by case_bool_decide.
  - rewrite workItem_wake. apply (H2 _ _ Hl). unfold wake, blocked in Hh.
    by case_bool_decide.
  - by destruct (H1 _ _ Hl Hp).
  - by destruct (H1 _ _ Hl Hp).
Qed.

Lemma work_inv_reachable iw mw lt s :
  reachable handler header iw mw lt s → work_inv s.
Proof.
  induction 1 as [|s a s' Hr IH Hs]; [apply work_inv_construct|].
  eapply work_inv_step; [|done..]. by eapply mutex_inv_reachable.
Qed.

End Work.

(** ** Stepping through a schedule *)

(** The next step of a schedule, computed. *)
Ltac run_step :=
  lazymatch goal with
  | |- match step ?h ?f ?s ?a with Some _ => _ | None => _ end = _ =>
      let r := eval vm_compute in (step h f s a) in
      change (step h f s a) with r; cbv beta iota
  end.

Section Tests.
Context {Item Out : Type}.
Variable handler : Item → Out.
Variable header : flavour.

(** The test of the loop of [workthread]. *)
Lemma loop_test (s : state Item Out) t w :
  threads s !! t = Some w → pc w = WtLoop →
  step handler header s (AWorker t)
  = Some (set_thread t
            (set_pc (if negb (quit (pl s)) && (0 <? lifeCount w)
                     then WtLock else WtLeave) w) s).
Proof.
  intros H Hpc. unfold step, worker_step. rewrite H, Hpc. by case_match.
Qed.

End Tests.

(** ** Calls that run without interference *)

Section EnqAlone.
Context {Item Out : Type}.
Variable handler : Item → Out.
Variable header : flavour.

Lemma enqueue_alone_spawns (s : state Item Out) x p :
  client s = CIdle →
  maxWorker (pl s) < nWorker (pl s) → nWaiting (pl s) = 0 →
  run handler header s (ACall (CallEnqueue x) :: repeat (AClient p) 4)
  = Some (addWorkerWithWork 10 (new_pair header x s) (with_promise header s)).
Proof.
  intros Hc H1 H2. apply Z.ltb_lt in H1. apply Z.eqb_eq in H2.
  cbn [repeat run]. unfold step at 1, begin_call. rewrite Hc.
  destruct header.
  all: do 4 (unfold step at 1, client_step at 1; fields; cbn [result];
             rewrite ?H1, ?H2, ?lookup_snoc_cases, ?bool_decide_eq_true_2
               by done).
  all: unfold new_pair, with_promise; fields.
  all: destruct s as [[] ts c ps m lg]; simpl in *; by subst.
Qed.

Lemma enqueue_alone_queues (s : state Item Out) x p :
  client s = CIdle → queueMutex (pl s) = None →
  ¬ (maxWorker (pl s) < nWorker (pl s) ∧ nWaiting (pl s) = 0) →
  nWaiting (pl s) ≤ 0 →
  run handler header s
    (ACall (CallEnqueue x)
     :: repeat (AClient p) (if maxWorker (pl s) <? nWorker (pl s) then 7 else 6))
  = Some (emit (EvPush (new_pair header x s))
            (upd_pool (set_qWork (qWork (pl s) ++ [new_pair header x s]))
               (with_promise header s))).
Proof.
  intros Hc Hm Hns H2.
  assert ((0 <? nWaiting (pl s)) = false) as H3 by (apply Z.ltb_ge; lia).
  destruct (maxWorker (pl s) <? nWorker (pl s)) eqn:H1.
  - assert ((nWaiting (pl s) =? 0) = false) as H4.
    { apply Z.eqb_neq. intros ?. apply Hns. by apply Z.ltb_lt in H1. }
    cbn [repeat run]. unfold step at 1, begin_call. rewrite Hc.
    destruct header.
    all: do 7 (unfold step at 1, client_step at 1; fields; cbn [result];
               rewrite ?H1, ?H3, ?H4, ?Hm, ?lookup_snoc_cases,
                 ?bool_decide_eq_true_2 by done;
               cbv beta iota).
    all: unfold new_pair, with_promise; fields.
    all: destruct s as [[] ts c ps m lg]; simpl in *; by subst.
  - cbn [repeat run]. unfold step at 1, begin_call. rewrite Hc.
    destruct header.
    all: do 6 (unfold step at 1, client_step at 1; fields; cbn [result];
               rewrite ?H1, ?H3, ?Hm, ?lookup_snoc_cases,
                 ?bool_decide_eq_true_2 by done;
               cbv beta iota).
    all: unfold new_pair, with_promise; fields.
    all: destruct s as [[] ts c ps m lg]; simpl in *; by subst.
Qed.

Lemma enqueue_alone_notifies (s : state Item Out) x p t w :
  client s = CIdle → queueMutex (pl s) = None → 0 < nWaiting (pl s) →
  threads s !! t = Some w → pc w = WtBlocked →
  run handler header s
    (ACall (CallEnqueue x)
     :: repeat (AClient p) (if maxWorker (pl s) <? nWorker (pl s) then 6 else 5)
     ++ [AClient t; AClient p])
  = Some (set_thread t (set_pc WtWoken w)
            (emit (EvPush (new_pair header x s))
               (upd_pool (set_qWork (qWork (pl s) ++ [new_pair header x s]))
                  (with_promise header s)))).
Proof.
  intros Hc Hm H2 Ht Hpc.
  assert ((nWaiting (pl s) =? 0) = false) as H3 by (apply Z.eqb_neq; lia).
  apply Z.ltb_lt in H2.
  assert (blocked w = true) as Hbl
    by (unfold blocked; by apply bool_decide_eq_true_2).
  assert (forallb (λ w, negb (blocked w)) (threads s) = false) as Hall.
  { destruct (forallb _ (threads s)) eqn:Hall; [|done].
    rewrite forallb_forall in Hall.
    specialize (Hall w (proj1 (list_elem_of_In _ _)
                          (list_elem_of_lookup_2 _ _ _ Ht))).
    by rewrite Hbl in Hall. }
  destruct (maxWorker (pl s) <? nWorker (pl s)) eqn:H1.
  all: cbn [repeat run app]; unfold step at 1, begin_call; rewrite Hc.
  all: destruct header.
  all: repeat (unfold step at 1, client_step at 1, notify_one; fields;
               cbn [result];
               rewrite ?H1, ?H2, ?H3, ?Hm, ?Hall, ?Ht, ?Hbl,
                 ?lookup_snoc_cases, ?bool_decide_eq_true_2 by done;
               cbv beta iota).
  all: unfold new_pair, with_promise, wake; fields; rewrite ?Hbl.
  all: destruct s as [[] ts c ps m lg]; simpl in *; by subst.
Qed.

Lemma enqueue_alone_notifies_nobody (s : state Item Out) x p :
  client s = CIdle → queueMutex (pl s) = None → 0 < nWaiting (pl s) →
  (∀ t w, threads s !! t = Some w → pc w ≠ WtBlocked) →
  run handler header s
    (ACall (CallEnqueue x)
     :: repeat (AClient p) (if maxWorker (pl s) <? nWorker (pl s) then 8 else 7))
  = Some (emit (EvPush (new_pair header x s))
            (upd_pool (set_qWork (qWork (pl s) ++ [new_pair header x s]))
               (with_promise header s))).
Proof.
  intros Hc Hm H2 Hnone.
  assert ((nWaiting (pl s) =? 0) = false) as H3 by (apply Z.eqb_neq; lia).
  apply Z.ltb_lt in H2.
  assert (forallb (λ w, negb (blocked w)) (threads s) = true) as Hall.
  { apply forallb_forall. intros w Hin%list_elem_of_In.
    apply list_elem_of_lookup_1 in Hin as [t Ht].
    unfold blocked. rewrite bool_decide_eq_false_2; [done|by eapply Hnone]. }
  destruct (maxWorker (pl s) <? nWorker (pl s)) eqn:H1.
  all: cbn [repeat run]; unfold step at 1, begin_call; rewrite Hc.
  all: destruct header.
  all: repeat (unfold step at 1, client_step at 1, notify_one; fields;
               cbn [result];
               rewrite ?H1, ?H2, ?H3, ?Hm, ?Hall,
                 ?lookup_snoc_cases, ?bool_decide_eq_true_2 by done;
               cbv beta iota).
  all: unfold new_pair, with_promise; fields.
  all: destruct s as [[] ts c ps m lg]; simpl in *; by subst.
Qed.

End EnqAlone.

Section IterAlone.
Context {Item Out : Type}.
Variable handler : Item → Out.

Lemma fetch_sub_add n : - 2 ^ 31 ≤ n < 2 ^ 31 → fetch_sub (fetch_add n 1) 1 = n.
Proof.
  intros H. unfold fetch_sub, fetch_add. rewrite wrap32_sub_l.
  replace (n + 1 - 1) with n by lia. by apply wrap32_id.
Qed.

Lemma iteration_alone (s : state Item Out) t w wp q :
  threads s !! t = Some w → pc w = WtLoop →
  quit (pl s) = false → 0 < lifeCount w →
  queueMutex (pl s) = None → qWork (pl s) = wp :: q →
  - 2 ^ 31 ≤ nWorking (pl s) < 2 ^ 31 →
  run handler FireAndForget s (repeat (AWorker t) 10)
  = Some (emit (EvRet t (item wp) (handler (item wp)))
            (emit (EvCall t false (item wp))
               (emit (EvPop t wp)
                  (set_thread t
                     (set_lifeCount (lifeCount w - 1)
                        (set_resultVar (Some (handler (item wp)))
                           (set_workItem (Some wp) w)))
                     (upd_pool (set_qWork q) s))))).
Proof.
  intros H Hpc Hq Hlife Hm Hqw Hn. pose proof (lookup_lt_Some _ _ _ H) as Hlt.
  apply Z.ltb_lt in Hlife.
  cbn [repeat run].
  do 10 (unfold step at 1; fields;
         rewrite ?H, ?list_lookup_insert_eq by (by rewrite ?length_insert);
         unfold worker_step at 1; fields;
         rewrite ?Hpc, ?Hq, ?Hlife, ?Hm, ?Hqw;
         cbn [negb andb]; rewrite ?list_insert_insert_eq).
  rewrite fetch_sub_add by done. by rewrite <- !app_assoc.
Qed.

Lemma iteration_alone_doWork (s : state Item Out) t w wp q i :
  threads s !! t = Some w → pc w = WtLoop →
  quit (pl s) = false → 0 < lifeCount w →
  queueMutex (pl s) = None → qWork (pl s) = wp :: q →
  - 2 ^ 31 ≤ nWorking (pl s) < 2 ^ 31 →
  result wp = Some i → promises s !! i = Some (mkPromise None false) →
  run handler WithFuture s (repeat (AWorker t) 12)
  = Some (emit (EvFulfil t i (handler (item wp)))
            (emit (EvRet t (item wp) (handler (item wp)))
               (emit (EvCall t false (item wp))
                  (emit (EvPop t wp)
                     (set_thread t
                        (set_lifeCount (lifeCount w - 1)
                           (set_resultVar (Some (handler (item wp)))
                              (set_workItem (Some wp) w)))
                        (set_promises
                           (<[i := mkPromise (Some (handler (item wp))) true]>
                              (promises s))
                           (upd_pool (set_qWork q) s))))))).
Proof.
  intros H Hpc Hq Hlife Hm Hqw Hn Hres Hp.
  pose proof (lookup_lt_Some _ _ _ H) as Hlt.
  pose proof (lookup_lt_Some _ _ _ Hp) as Hlt'.
  apply Z.ltb_lt in Hlife.
  cbn [repeat run].
  do 12 (unfold step at 1; fields;
         rewrite ?H, ?list_lookup_insert_eq by (by rewrite ?length_insert);
         unfold worker_step at 1; fields;
         rewrite ?Hpc, ?Hq, ?Hlife, ?Hm, ?Hqw, ?Hres, ?Hp;
         rewrite ?list_lookup_insert_eq by (by rewrite ?length_insert);
         cbn [negb andb]; rewrite ?list_insert_insert_eq).
  rewrite fetch_sub_add by done. by rewrite <- !app_assoc.
Qed.

End IterAlone.

Section KillAlone.
Context {Item Out : Type}.
Variable handler : Item → Out.
Variable header : flavour.

Lemma kill_spins (n : nat) p :
  ∀ (s : state Item Out) c,
    client s = KillSpin c → 0 ≤ c → 0 < nWorker (pl s) →
    run handler header s (repeat (AClient p) n)
    = Some (set_client (KillSpin (Z.max 0 (c - Z.of_nat n))) s).
Proof.
  induction n as [|n IH]; intros s c Hc Hc0 Hn.
  - cbn [repeat run]. replace (Z.max 0 (c - Z.of_nat 0)) with c by lia.
    destruct s; simpl in *; by subst.
  - cbn [repeat run]. unfold step, client_step. rewrite Hc.
    rewrite (proj2 (Z.ltb_lt _ _) Hn).
    destruct (decide (c = 0)) as [->|Hne].
    + cbn [Z.eqb negb]. rewrite (IH s 0) by done.
      by replace (Z.max 0 (0 - Z.of_nat (S n)))
        with (Z.max 0 (0 - Z.of_nat n)) by lia.
    + rewrite (proj2 (Z.eqb_neq _ _) Hne). cbn [negb].
      rewrite (IH _ (c - 1)); [|done|lia|done].
      by replace (Z.max 0 (c - 1 - Z.of_nat n))
        with (Z.max 0 (c - Z.of_nat (S n))) by lia.
Qed.

Lemma kill_alone_returns (s : state Item Out) p :
  client s = CIdle → nWorker (pl s) ≤ 0 →
  run handler header s (ACall CallKill :: repeat (AClient p) 4)
  = Some (emit EvKillReturn
            (upd_pool (λ q, set_workers [] (set_quit true q))
               (notify_all s))).
Proof.
  intros Hc Hn. apply Z.ltb_ge in Hn.
  cbn [repeat run]. unfold step at 1, begin_call. rewrite Hc.
  do 4 (unfold step at 1, client_step at 1; fields; rewrite ?Hn).
  destruct s as [[] ts c ps m lg]; simpl in *; by subst.
Qed.

Lemma kill_alone_spins (s : state Item Out) p n :
  client s = CIdle → 0 < nWorker (pl s) →
  run handler header s (ACall CallKill :: repeat (AClient p) (3 + n))
  = Some (set_client (KillSpin (Z.max 0 (10000 - Z.of_nat n)))
            (upd_pool (λ q, set_workers [] (set_quit true q))
               (notify_all s))).
Proof.
  intros Hc Hn.
  change (3 + n)%nat with (S (S (S n))).
  cbn [repeat run]. unfold step at 1, begin_call. rewrite Hc.
  do 3 (unfold step at 1, client_step at 1; fields).
  erewrite kill_spins; [|reflexivity|lia|done].
  destruct s as [[] ts c ps m lg]; simpl in *; by subst.
Qed.

End KillAlone.

(** ** The invocations of one thread *)

Section Trace.
Context {Item Out : Type}.
Variable handler : Item → Out.
Variable header : flavour.

Local Abbreviation state := (state Item Out).
Local Abbreviation event := (event Item Out).

Lemma call_trace_snoc t (l : list event) e :
  call_trace t (l ++ [e]) = call_trace t l ++ call_trace t [e].
Proof. unfold call_trace. by rewrite flat_map_app. Qed.

Lemma direct_calls_by_snoc t (l : list event) e :
  direct_calls_by t (l ++ [e]) = direct_calls_by t l ++ direct_calls_by t [e].
Proof. unfold direct_calls_by. by rewrite flat_map_app. Qed.

Lemma calls_call_trace t (l : list event) :
  tally (is_call t) l = Z.of_nat (length (call_trace t l)).
Proof.
  induction l as [|e l IH]; [done|]. cbn [tally call_trace flat_map].
  fold (call_trace t l). rewrite length_app, IH.
  destruct e; simpl; try lia. case_bool_decide; simpl; lia.
Qed.

Lemma no_calls_no_trace t (l : list event) :
  tally (is_call t) l = 0 →
  call_trace t l = [] ∧ direct_calls_by t l = [] ∧ loop_calls_by t l = [].
Proof.
  induction l as [|e l IH]; [done|]. cbn [tally]. intros H.
  pose proof (tally_nonneg (is_call t) l).
  assert (is_call t e = false) as He by (destruct (is_call t e); simpl in *; [lia|done]).
  rewrite He in H. simpl in H. destruct (IH H) as (H1 & H2 & H3).
  unfold call_trace, direct_calls_by, loop_calls_by in *.
  cbn [flat_map]. rewrite H1, H2, H3.
  destruct e; simpl in *; try done.
  case_bool_decide; [done|]. by repeat case_match.
Qed.

Lemma lambda_done_wake (w : worker Item Out) :
  lambda_done (wake w) = lambda_done w.
Proof.
  unfold wake, blocked, lambda_done. case_bool_decide as E; [|done].
  simpl. rewrite E. by rewrite !bool_decide_eq_false_2.
Qed.

Lemma trace_inv_construct iw mw lt : trace_inv (construct iw mw lt : state).
Proof.
  destruct (construct_fields (Item:=Item) (Out:=Out) iw mw lt)
    as (_ & H2 & _ & _ & _ & H6).
  unfold trace_inv. cbv zeta in *. rewrite H2, H6.
  by intros t w [-> _]%lookup_replicate.
Qed.

Lemma trace_inv_step s a s' :
  life_inv s → trace_inv s → step handler header s a = Some s' → trace_inv s'.
Proof.
  intros [L1 L2] H Hs. unfold trace_inv.
  step_inv Hs; fields.
  all: intros t' w' Hl; thread_lookup Hl; simplify_eq/=.
  all: rewrite ?call_trace_snoc, ?direct_calls_by_snoc, ?loop_calls_by_snoc.
  all: cbn [call_trace direct_calls_by loop_calls_by flat_map];
       rewrite ?app_nil_r.
  all: rewrite ?lambda_done_wake.
  all: try (by apply H).
  all: rewrite ?bool_decide_eq_true_2, ?bool_decide_eq_false_2 by done;
       rewrite ?app_nil_r.
  all: try (by apply H).
  (* a thread that is started now has made no call *)
  all: try (destruct (no_calls_no_trace _ _ (L2 _ (Nat.le_refl _)))
              as (-> & -> & ->); done).
  (* the thread that moves *)
  all: try match goal with
    | Ht : threads _ !! _ = Some ?w, E : pc ?w = _ |- _ =>
        destruct (H _ _ Ht) as [Ha Hb];
        destruct (L1 _ _ Ht) as [(_ & _ & Hlife) _];
        unfold lambda_done in *; cbn [pc overflow] in *; rewrite E in *;
        cbn [life_ok] in Hlife
    end.
  all: rewrite ?bool_decide_eq_true_2, ?bool_decide_eq_false_2 in * by done.
  all: try (split; [done|]; by rewrite Hb).
  - destruct Hlife as (-> & Hz & _).
    destruct (no_calls_no_trace _ _ Hz) as (-> & -> & ->). done.
  - split; [|done]. by rewrite Ha, fmap_app, app_assoc.
Qed.

Lemma trace_inv_reachable iw mw lt s :
  reachable handler header iw mw lt s → trace_inv s.
Proof.
  induction 1 as [|s a s' Hr IH Hs]; [apply trace_inv_construct|].
  eapply trace_inv_step; [|done..]. by eapply life_inv_reachable.
Qed.

(** The item of an overflow thread *)

Lemma spawned_with_step t x s a s' :
  trace_inv s → spawned_with t x s → step handler header s a = Some s' →
  spawned_with t x s'.
Proof.
  intros Htr [Hlt H] Hs. unfold spawned_with.
  step_inv Hs; fields.
  all: rewrite ?length_insert, ?length_app, ?length_fmap.
  all: (split; [cbn [length]; lia|]).
  all: intros w' Hl; thread_lookup Hl; simplify_eq/=.
  all: rewrite ?direct_calls_by_snoc; cbn [direct_calls_by flat_map];
       rewrite ?app_nil_r.
  all: try (by apply H).
  all: rewrite ?bool_decide_eq_true_2, ?bool_decide_eq_false_2 by done;
       rewrite ?app_nil_r.
  all: try (by apply H).
  all: try lia.
  all: try match goal with
    | Ht : threads _ !! _ = Some ?w, E : pc ?w = _ |- overflow ?w = true ∧ _ =>
        destruct (H _ Ht) as (Ho & Hc & Hd); rewrite E in Hc, Hd;
        split; [done|]; split; [done|intros _]
    end.
  all: try (by apply Hd).
  - destruct (H _ Hl) as (Ho & Hc & Hd). unfold wake, blocked.
    case_bool_decide as E; [|done]. cbn.
    split; [done|]. split; [done|]. intros _. apply Hd. by rewrite E.
  - destruct (Hc eq_refl) as (wp & ? & <-). simplify_eq.
    match goal with
    | Ht : threads _ !! _ = Some ?w, E : pc ?w = LambdaCall |- _ =>
        destruct (Htr _ _ Ht) as [_ Hn]; unfold lambda_done in Hn;
        rewrite E in Hn
    end.
    rewrite bool_decide_eq_true_2, andb_false_r in Hn by done.
    by destruct (direct_calls_by _ _).
Qed.

Lemma spawned_with_run t x (tr : list (action Item)) iw mw lt :
  ∀ s s', reachable handler header iw mw lt s → spawned_with t x s →
          run handler header s tr = Some s' → spawned_with t x s'.
Proof.
  induction tr as [|a tr IH]; intros s s' Hr H Hrun; cbn [run] in Hrun.
  - by simplify_eq.
  - destruct (step handler header s a) as [s1|] eqn:E; [|done].
    eapply IH; [by eapply reach_step| |done].
    eapply spawned_with_step; [|done..]. by eapply trace_inv_reachable.
Qed.

Lemma spawned_with_start (s s' : state) wp p :
  client s = EnqSpawn wp → step handler header s (AClient p) = Some s' →
  spawned_with (length (threads s)) (item wp) s'.
Proof.
  intros Hc Hs. unfold step, client_step in Hs. rewrite Hc in Hs.
  simplify_eq. unfold spawned_with. fields.
  rewrite length_app. split; [cbn [length]; lia|].
  intros w Hl. apply lookup_snoc_Some in Hl as [(? & _)|(_ & <-)]; [lia|].
  cbn. split; [done|]. split; [by eexists|done].
Qed.

End Trace.

(** ** Waking up on an empty queue with [quit] set *)

Section Recheck_quit.
Context {Item Out : Type}.
Variable handler : Item → Out.
Variable header : flavour.


End Recheck_quit.

(** ** Before the first call *)

Section Start.
Context {Item Out : Type}.
Variable handler : Item → Out.
Variable header : flavour.

Local Abbreviation state := (state Item Out).

Lemma fresh_pool_construct iw mw lt :
  fresh_pool (Z.to_nat iw) mw lt (construct iw mw lt : state).
Proof.
  destruct (construct_fields (Item:=Item) (Out:=Out) iw mw lt)
    as (H1 & H2 & H3 & H4 & H5 & H6).
  unfold fresh_pool. cbv zeta in *. rewrite H1, H2, H3, H4, H5, H6. cbn.
  rewrite length_replicate. repeat split; try done.
  all: by apply lookup_replicate in H as [-> _].
Qed.

Lemma fresh_pool_step n mw lt (s s' : state) a :
  fresh_pool n mw lt s → is_thread_action a = true →
  step handler header s a = Some s' → fresh_pool n mw lt s'.
Proof.
  intros (F1 & F2 & F3 & F4 & F5 & F6 & F7 & F8 & F9 & F10 & F11 & F12) Ha Hs.
  unfold fresh_pool.
  step_inv Hs; fields; try done.
  all: try match goal with
    | Ht : threads _ !! _ = Some ?w, E : pc ?w = _ |- _ =>
        let X := fresh in
        destruct (F12 _ _ Ht) as (X & _); rewrite E in X; discriminate X
    end.
  all: try congruence.
  all: rewrite ?length_insert.
  all: do 11 (split; [first [done|congruence]|]).
  all: intros t' w' Hl; thread_lookup Hl; simplify_eq/=.
  all: try (by eapply F12).
  all: try match goal with
    | Ht : threads _ !! _ = Some ?w |- _ =>
        destruct (F12 _ _ Ht) as (_ & ? & ? & ? & ? & ?); done
    end.
Qed.

Lemma fresh_pool_run n mw lt (tr : list (action Item)) :
  ∀ s s' : state,
    fresh_pool n mw lt s → forallb is_thread_action tr = true →
    run handler header s tr = Some s' → fresh_pool n mw lt s'.
Proof.
  induction tr as [|a tr IH]; intros s s' H Hall Hrun; cbn [run] in Hrun.
  - by simplify_eq.
  - cbn [forallb] in Hall. apply andb_true_iff in Hall as [Ha Hall].
    destruct (step handler header s a) as [s1|] eqn:E; [|done].
    eapply IH; [|done..]. by eapply fresh_pool_step.
Qed.

End Start.

(** * The claims *)

(** C1, at a state the claim speaks of.  Two workers are alive, the
    ceiling is 4 and nobody waits: [enqueue] does not start a thread but
    appends the item to the queue.  One worker is alive, the ceiling is 0
    and nobody waits: [enqueue] starts an overflow worker and leaves the
    queue alone. *)
Theorem enqueue_spawns_above_the_ceiling :
  (∃ s s',
     run sample_handler FireAndForget (construct 2 4 3) two_workers_started
       = Some s ∧
     nWorker (pl s) = 2 ∧ maxWorker (pl s) = 4 ∧ nWaiting (pl s) = 0 ∧
     spawn_condition (pl s) = false ∧
     run sample_handler FireAndForget s (enqueue_quietly 5) = Some s' ∧
     length (threads s') = 2%nat ∧
     qWork (pl s') = [mkWorkPair None 5%nat] ∧ client s' = CIdle) ∧
  (∃ s s',
     run sample_handler FireAndForget (construct 1 0 1) [AWorker 0%nat]
       = Some s ∧
     nWorker (pl s) = 1 ∧ maxWorker (pl s) = 0 ∧ nWaiting (pl s) = 0 ∧
     spawn_condition (pl s) = true ∧
     run sample_handler FireAndForget s (enqueue_spawning 7) = Some s' ∧
     pc <$> threads s' = [WtLoop; LambdaCall] ∧
     qWork (pl s') = [] ∧ client s' = CIdle).
Proof.
  split; eexists _, _; (split; [vm_compute; reflexivity|]);
    repeat (split; [vm_compute; reflexivity|]); vm_compute; reflexivity.
Qed.

(** C2, at a submission the claim speaks of.  In tmp.h, with one worker
    alive and ceiling 0, [enqueue( 7 )] allocates promise 0 and hands the
    pair to an overflow worker.  That worker has entered the handler on 7,
    the handler has returned 8, the worker has gone on into [workthread]
    and blocks on the empty queue; promise 0 has no value.  Whatever is
    scheduled from then on, promise 0 never receives a value. *)
Theorem overflow_promise_is_never_fulfilled :
  ∃ s,
    run sample_future_handler WithFuture (construct 1 0 1) overflow_submission
      = Some s ∧
    log s = [EvCall 1 true 7%nat; EvRet 1 7%nat 8%nat] ∧
    pc <$> threads s = [WtLoop; WtBlocked] ∧
    client s = CIdle ∧ qWork (pl s) = [] ∧
    promises s = [mkPromise None false] ∧
    ∀ tr s',
      run sample_future_handler WithFuture s tr = Some s' →
      promises s' !! 0%nat = Some (mkPromise None false).
Proof.
  eexists. split; [vm_compute; reflexivity|].
  do 5 (split; [vm_compute; reflexivity|]).
  intros tr s' Hrun. eapply orphan_run in Hrun; [apply Hrun|].
  split; [done|]. split; [|split].
  - intros wp Hin. cbn in Hin. by apply elem_of_nil in Hin.
  - intros [|[|t]] w wp Hl Hh Hw; by simplify_eq/=.
  - intros wp Hsub. by simplify_eq/=.
Qed.

(** C3, on a schedule on which it fails.  With one worker alive and
    ceiling 0, [enqueue( 7 )] starts an overflow worker; [kill()] follows
    before that thread has run.  The initial worker sees [quit] and takes
    itself out of [nWorker], [kill()] reads zero and returns; after that
    the overflow worker enters the handler on 7 and then adds itself to
    [nWorker]. *)
Theorem handler_runs_after_kill_returned :
  ∃ s,
    run sample_handler FireAndForget (construct 1 0 1)
      kill_before_overflow_runs = Some s ∧
    log s = [EvKillReturn; EvCall 1 true 7%nat;
             EvRet 1 7%nat (sample_handler 7)] ∧
    quit (pl s) = true ∧ client s = CIdle ∧ nWorker (pl s) = 1.
Proof.
  eexists. split; [vm_compute; reflexivity|].
  repeat split; vm_compute; reflexivity.
Qed.

(** C4, at a state the claim speaks of.  The only worker of a pool with
    ceiling 4 has served its one item and retired, so [nWorker] is zero and
    [quit] is not set.  The next [enqueue] appends its item to the queue
    and starts no thread; from then on, whatever is scheduled, no thread
    is ever started and the handler is never entered again, so the item
    stays in the queue. *)
Theorem enqueue_after_retirement_stalls :
  ∃ s,
    run sample_handler FireAndForget (construct 1 4 1) retire_then_enqueue
      = Some s ∧
    nWorker (pl s) = 0 ∧ quit (pl s) = false ∧ client s = CIdle ∧
    pc <$> threads s = [Done] ∧
    qWork (pl s) = [mkWorkPair None 2%nat] ∧ loop_calls (log s) = [1%nat] ∧
    ∀ tr s',
      run sample_handler FireAndForget s tr = Some s' →
      threads s' = threads s ∧ loop_calls (log s') = [1%nat] ∧
      qWork (pl s) `prefix_of` qWork (pl s').
Proof.
  destruct (run sample_handler FireAndForget (construct 1 4 1)
              retire_then_enqueue) as [s|] eqn:E; [|by vm_compute in E].
  vm_compute in E. simplify_eq. eexists. split; [done|].
  do 6 (split; [done|]).
  intros tr s' Hrun. eapply stalled_run in Hrun as (_ & H2 & H3 & H4); [done|].
  split; [|by repeat split].
  intros [|[|t]] w Hw; by simplify_eq/=.
Qed.

(** C5 (amended). An initial worker is created with budget [lifeTime], an
    overflow worker with budget 10.  The handler invocations of a thread
    are those of the lambda of [addWorkerWithWork], if it runs one,
    followed by those of its [workthread] loop: an initial worker makes
    none outside the loop, an overflow worker makes exactly one, before
    it enters [workthread], and on the item [enqueue] started it for.  A
    thread never makes more invocations in the loop than its budget (none
    when the budget is negative); a thread that is about to take itself
    out of [nWorker], or has done so, has made exactly that many, or fewer
    and then [quit] is set. *)
Theorem life_bounded_retirement {Item Out} (handler : Item → Out) header
    iw mw lt (s : state Item Out) t w :
  reachable handler header iw mw lt s →
  threads s !! t = Some w →
  budget w = (if overflow w then 10 else lt) ∧
  call_trace t (log s)
  = (pair true <$> direct_calls_by t (log s)) ++
    (pair false <$> loop_calls_by t (log s)) ∧
  Z.of_nat (length (direct_calls_by t (log s))) = b2z (lambda_done w) ∧
  Z.of_nat (length (loop_calls_by t (log s))) ≤ Z.max 0 (budget w) ∧
  (pc w = WtLeave ∨ pc w = Done →
   Z.of_nat (length (loop_calls_by t (log s))) = Z.max 0 (budget w) ∨
   (Z.of_nat (length (loop_calls_by t (log s))) < Z.max 0 (budget w) ∧
    quit (pl s) = true)) ∧
  (∀ s0 wp p s1 tr,
     reachable handler header iw mw lt s0 →
     client s0 = EnqSpawn wp →
     step handler header s0 (AClient p) = Some s1 →
     run handler header s1 tr = Some s →
     t = length (threads s0) →
     overflow w = true ∧
     (pc w = LambdaCall → loop_calls_by t (log s) = []) ∧
     (pc w ≠ LambdaCall → direct_calls_by t (log s) = [item wp])).
Proof.
  intros Hr Hl.
  destruct (config_reachable _ _ _ _ _ _ Hr) as [Hlt _].
  destruct (life_inv_reachable _ _ _ _ _ _ Hr) as [H _].
  destruct (H _ _ Hl) as [(H1 & H2 & H3) H4]. rewrite Hlt in H4.
  destruct (trace_inv_reachable _ _ _ _ _ _ Hr _ _ Hl) as [Ht Hd].
  assert (calls t s = Z.of_nat (length (direct_calls_by t (log s))) +
                      Z.of_nat (length (loop_calls_by t (log s)))) as Hsum.
  { unfold calls. rewrite calls_call_trace, Ht, length_app, !length_fmap. lia. }
  rewrite Hd in Hsum. unfold lambda_done in Hsum.
  assert (Z.of_nat (length (loop_calls_by t (log s))) ≤ Z.max 0 (budget w))
    as Hle.
  { destruct (pc w) eqn:E; simpl in H3; destruct_and?;
      rewrite ?bool_decide_eq_true_2, ?bool_decide_eq_false_2 in Hsum by done;
      destruct (overflow w); simpl in *; try done; lia. }
  split; [done|]. split; [done|]. split; [done|]. split; [done|]. split.
  - intros Hpc.
    destruct (decide (Z.of_nat (length (loop_calls_by t (log s)))
                      = Z.max 0 (budget w))) as [|Hne]; [by left|right].
    split; [lia|].
    destruct Hpc as [E|E]; rewrite E in H3, Hsum; simpl in H3;
      rewrite bool_decide_eq_false_2 in Hsum by done;
      destruct H3 as [Hn [?|?]]; [|done| |done];
      destruct (overflow w); simpl in *; lia.
  - intros s0 wp p s1 tr Hr0 Hc Hs Hrun ->.
    assert (Hr1 : reachable handler header iw mw lt s1)
      by (by eapply reach_step).
    pose proof (spawned_with_start _ _ _ _ _ _ Hc Hs) as Hsp0.
    pose proof (spawned_with_run _ _ _ _ _ _ _ _ _ _ Hr1 Hsp0 Hrun)
      as [_ Hsp].
    destruct (Hsp _ Hl) as (Ho & _ & Hx). split; [done|]. split; [|done].
    intros E. rewrite E in H3. simpl in H3.
    destruct H3 as (_ & Hz & _).
    by destruct (no_calls_no_trace _ _ Hz) as (_ & _ & ?).
Qed.

Lemma life_bounded_retirement_witness :
  ∃ s0 s1 s w,
    run sample_handler FireAndForget (construct 1 0 0) overflow_until_spawn
      = Some s0 ∧
    client s0 = EnqSpawn (mkWorkPair None 0%nat) ∧
    step sample_handler FireAndForget s0 (AClient 0) = Some s1 ∧
    run sample_handler FireAndForget s1 overflow_after_spawn = Some s ∧
    threads s !! 1%nat = Some w ∧ pc w = Done ∧ quit (pl s) = false ∧
    direct_calls_by 1 (log s) = [0%nat] ∧
    Z.of_nat (length (loop_calls_by 1 (log s))) = 10.
Proof.
  destruct (run sample_handler FireAndForget (construct 1 0 0)
              overflow_until_spawn) as [s0|] eqn:E0; [|by vm_compute in E0].
  destruct (step sample_handler FireAndForget s0 (AClient 0)) as [s1|] eqn:E1;
    [|by vm_compute in E0; injection E0 as <-; vm_compute in E1].
  destruct (run sample_handler FireAndForget s1 overflow_after_spawn)
    as [s|] eqn:E2;
    [|by vm_compute in E0; injection E0 as <-; vm_compute in E1;
         injection E1 as <-; vm_compute in E2].
  assert (Hr0 : reachable sample_handler FireAndForget 1 0 0 s0)
    by (eapply reachable_run; [apply reach_construct|exact E0]).
  assert (Hr : reachable sample_handler FireAndForget 1 0 0 s)
    by (eapply reachable_run; [eapply reach_step; [exact Hr0|exact E1]
                              |exact E2]).
  assert (Hc : client s0 = EnqSpawn (mkWorkPair None 0%nat))
    by (clear -E0; vm_compute in E0; by injection E0 as <-).
  assert (Hn : 1%nat = length (threads s0))
    by (clear -E0; vm_compute in E0; by injection E0 as <-).
  destruct (threads s !! 1%nat) as [w|] eqn:Hw;
    [|by clear -E0 E1 E2 Hw; vm_compute in E0; injection E0 as <-;
         vm_compute in E1; injection E1 as <-;
         vm_compute in E2; injection E2 as <-].
  assert (pc w = Done ∧ budget w = 10 ∧ quit (pl s) = false)
    as (Hpc & Hb & Hq)
    by (clear -E0 E1 E2 Hw; vm_compute in E0; injection E0 as <-;
        vm_compute in E1; injection E1 as <-;
        vm_compute in E2; injection E2 as <-;
        vm_compute in Hw; by injection Hw as <-).
  exists s0, s1, s, w. do 7 (split; [assumption || reflexivity|]).
  destruct (life_bounded_retirement _ _ _ _ _ _ _ _ Hr Hw)
    as (_ & _ & _ & _ & Hloop & Hitem).
  destruct (Hitem _ _ _ _ _ Hr0 Hc E1 E2 Hn) as (_ & _ & Hx).
  split; [apply Hx; by rewrite Hpc|].
  destruct (Hloop (or_intror Hpc)) as [Hy|[_ Hy]]; [|congruence].
  by rewrite Hy, Hb.
Defined.

(** C5, as stated, fails: the overflow worker of [overflow_schedule] was
    created with [lifeCount = 10], has made eleven handler invocations and
    has left [nWorker], and [quit] was never set. *)
Lemma overflow_worker_exceeds_budget :
  ∃ s w,
    run sample_handler FireAndForget (construct 1 0 0) overflow_schedule
      = Some s ∧
    threads s !! 1%nat = Some w ∧
    overflow w = true ∧ budget w = 10 ∧ pc w = Done ∧
    quit (pl s) = false ∧ calls 1 s = 11 ∧
    ¬ retires_on_budget s 1 w.
Proof.
  destruct (run sample_handler FireAndForget (construct 1 0 0)
              overflow_schedule) as [s|] eqn:E; [|by vm_compute in E].
  exists s. vm_compute in E. simplify_eq. eexists. split; [done|].
  split; [reflexivity|]. repeat split; try done.
  intros H. destruct H as [H|[H _]]; [by right|by vm_compute in H..].
Qed.

(** C6. In every reachable state in which fewer than 2^31 threads are
    between their [nWorker.fetch_add(1)] and their [nWorker.fetch_sub(1)]
    (so that the 32 bit counter has not wrapped), each counter is the
    number of threads at the program points between its increment and its
    decrement; the points that contribute to [nWaiting] and those that
    contribute to [nWorking] are disjoint and both lie between the increment
    and the decrement of [nWorker]; hence
    [nWaiting + nWorking <= nWorker]. *)
Theorem counter_invariant {Item Out} (handler : Item → Out) header
    iw mw lt (s : state Item Out) :
  reachable handler header iw mw lt s →
  tally counted (threads s) < 2 ^ 31 →
  nWorker (pl s) = tally counted (threads s) ∧
  nWaiting (pl s) = tally waiting (threads s) ∧
  nWorking (pl s) = tally working (threads s) ∧
  (∀ w : worker Item Out,
      (waiting w ∨ working w → counted w) ∧ ¬ (waiting w ∧ working w)) ∧
  nWaiting (pl s) + nWorking (pl s) ≤ nWorker (pl s).
Proof.
  intros Hr Hb. destruct (counters_ok_reachable _ _ _ _ _ _ Hr) as (H1 & H2 & H3).
  pose proof (tally_nonneg counted (threads s)).
  pose proof (tally_nonneg waiting (threads s)).
  pose proof (tally_nonneg working (threads s)).
  pose proof (tally_sum_le waiting working counted (threads s) regions_nested).
  rewrite wrap32_id in H1, H2, H3 by lia.
  repeat split; try lia.
  - intros Hw. pose proof (regions_nested w).
    destruct Hw as [Hw|Hw], (counted w); try done;
      apply Is_true_true in Hw; rewrite Hw in *; simpl in *;
      destruct (waiting w), (working w); simpl in *; lia.
  - intros [Ha Hb']. pose proof (regions_nested w).
    apply Is_true_true in Ha, Hb'. rewrite Ha, Hb' in *.
    destruct (counted w); simpl in *; lia.
Qed.

Lemma counter_invariant_witness :
  ∃ s, run sample_handler FireAndForget (construct 2 4 3) sample_schedule
       = Some s ∧
       nWaiting (pl s) = 1 ∧ nWorking (pl s) = 1 ∧ nWorker (pl s) = 2 ∧
       nWaiting (pl s) + nWorking (pl s) ≤ nWorker (pl s).
Proof.
  destruct (run sample_handler FireAndForget (construct 2 4 3) sample_schedule)
    as [s|] eqn:E; [|by vm_compute in E].
  exists s. split; [done|].
  assert (Hr : reachable sample_handler FireAndForget 2 4 3 s)
    by (eapply reachable_run; [apply reach_construct|exact E]).
  assert (Hb : tally counted (threads s) < 2 ^ 31)
    by (vm_compute in E; simplify_eq; by vm_compute).
  pose proof (counter_invariant _ _ _ _ _ _ Hr Hb) as (_ & _ & _ & _ & H5).
  assert (nWaiting (pl s) = 1 ∧ nWorking (pl s) = 1 ∧ nWorker (pl s) = 2)
    as (? & ? & ?) by (vm_compute in E; simplify_eq; by vm_compute).
  repeat split; [done..|exact H5].
Defined.

(** C7 (amended). The items leave the queue in the order in which they
    entered it: what has been popped so far, followed by what is still
    queued, is what has been pushed.  Each worker passes the items it has
    popped to the handler in the order in which it popped them, one at a
    time ([pending] is the one it holds).  Nothing orders the handler
    invocations of different workers. *)
Theorem fifo_order {Item Out} (handler : Item → Out) header
    iw mw lt (s : state Item Out) :
  reachable handler header iw mw lt s →
  pops (log s) ++ qWork (pl s) = pushes (log s) ∧
  ∀ t w, threads s !! t = Some w →
         loop_calls_by t (log s) ++ pending w = item <$> pops_by t (log s).
Proof.
  intros Hr. destruct (fifo_inv_reachable _ _ _ _ _ _ Hr) as (H1 & H2 & _).
  done.
Qed.

Lemma fifo_order_witness :
  ∃ s, run sample_handler FireAndForget (construct 2 4 3) overtaking_schedule
       = Some s ∧
       pops (log s) ++ qWork (pl s) = pushes (log s).
Proof.
  destruct (run sample_handler FireAndForget (construct 2 4 3)
              overtaking_schedule) as [s|] eqn:E; [|by vm_compute in E].
  exists s. split; [done|].
  apply (fifo_order sample_handler FireAndForget 2 4 3 s).
  eapply reachable_run; [apply reach_construct|exact E].
Defined.

(** C7, as stated, fails: in [overtaking_schedule] no overflow worker
    exists, the items 1 and 2 are queued in this order, and the handler is
    entered on 2 before it is entered on 1. *)
Lemma queued_items_overtake :
  ∃ s,
    run sample_handler FireAndForget (construct 2 4 3) overtaking_schedule
      = Some s ∧
    overflow <$> threads s = [false; false] ∧
    item <$> pushes (log s) = [1; 2]%nat ∧
    loop_calls (log s) = [2; 1]%nat ∧
    ¬ served_in_submission_order s.
Proof.
  destruct (run sample_handler FireAndForget (construct 2 4 3)
              overtaking_schedule) as [s|] eqn:E; [|by vm_compute in E].
  exists s. vm_compute in E. simplify_eq. repeat split.
  intros [k Hk]. vm_compute in Hk. discriminate.
Qed.




(** C9. Each of the two steps of [queryPoolStatus] is defined for every
    pointer argument, null or not; the first changes nothing but the cell
    [waiting] points to, which receives [nWaiting], the second nothing but
    the cell [working] points to, which receives [nWorking]; with a null
    pointer the step changes nothing.  The pool object, the threads, the
    promises and the history are the same before and after, whatever the
    other threads do in between.  Run without interruption, the call
    leaves both counters of the state it started in. *)
Theorem queryPoolStatus_frame {Item Out} (handler : Item → Out) header
    (waiting working : option nat) :
  (∀ (s : state Item Out) pick,
     client s = QryWaiting waiting working →
     step handler header s (AClient pick)
     = Some (mkState (pl s) (threads s) (QryWorking working) (promises s)
               (reported waiting (nWaiting (pl s)) (mem s)) (log s))) ∧
  (∀ (s : state Item Out) pick,
     client s = QryWorking working →
     step handler header s (AClient pick)
     = Some (mkState (pl s) (threads s) CIdle (promises s)
               (reported working (nWorking (pl s)) (mem s)) (log s))) ∧
  (∀ (s : state Item Out) p1 p2,
     client s = CIdle →
     run handler header s
       [ACall (CallQuery waiting working); AClient p1; AClient p2]
     = Some (mkState (pl s) (threads s) CIdle (promises s)
               (reported working (nWorking (pl s))
                  (reported waiting (nWaiting (pl s)) (mem s)))
               (log s))) ∧
  (∀ m v l, reported None v m = m ∧
            (∀ l', l' ≠ l → reported (Some l) v m !! l' = m !! l')).
Proof.
  repeat split.
  - intros s pick H. unfold step, client_step. rewrite H.
    destruct waiting; simpl; [done|]. by destruct s.
  - intros s pick H. unfold step, client_step. rewrite H.
    destruct working; simpl; [done|]. by destruct s.
  - intros s p1 p2 H. cbn [run]. unfold step at 1, begin_call. rewrite H.
    unfold step, client_step. destruct s as [p ts c ps m lg]. simpl in *.
    by destruct waiting, working.
  - intros l' Hne. simpl. by rewrite lookup_insert_ne.
Qed.

Lemma queryPoolStatus_frame_witness :
  ∃ s : state nat bool,
    run sample_handler FireAndForget (construct 2 4 3) sample_schedule
      = Some s ∧
    client s = CIdle ∧
    run sample_handler FireAndForget s
      [ACall (CallQuery None (Some 7%nat)); AClient 0; AClient 0]
    = Some (mkState (pl s) (threads s) CIdle (promises s)
              (<[7%nat := 1]> (mem s)) (log s)).
Proof.
  destruct (run sample_handler FireAndForget (construct 2 4 3) sample_schedule)
    as [s|] eqn:E; [|by vm_compute in E].
  assert (Hc : client s = CIdle) by (vm_compute in E; by simplify_eq).
  assert (Hn : nWorking (pl s) = 1) by (vm_compute in E; by simplify_eq).
  exists s. split; [done|]. split; [done|].
  destruct (queryPoolStatus_frame sample_handler FireAndForget None
              (Some 7%nat)) as (_ & _ & H & _).
  rewrite (H s 0%nat 0%nat Hc). simpl. by rewrite Hn.
Defined.

(** C10. In DynamicProcessPool.h, under any two handlers and any schedule,
    a pool constructed with the same arguments goes through the same
    states up to the local [result] of the threads and the value recorded
    with a return in the history: the schedule is possible under the one
    handler exactly when it is under the other, and counters, queue, flags,
    worker list, program points, life counts, items held and the caller's
    memory agree at the end. *)
Theorem handler_result_is_discarded {Item} (h1 h2 : Item → bool)
    iw mw lt (tr : list (action Item)) :
  erase <$> run h1 FireAndForget (construct iw mw lt) tr
  = erase <$> run h2 FireAndForget (construct iw mw lt) tr.
Proof. apply erase_run; [done|]. apply outside_doWork_construct. Qed.

(** * Further properties of the code *)

(** X1. [queueMutex] gives mutual exclusion: in every reachable state at
    most one thread, worker or caller, is inside a guarded region; a step
    changes [qWork] only if the thread that takes it owns the mutex; and a
    thread that is inside the handler does not own it. *)
Theorem queue_mutual_exclusion {Item Out} (handler : Item → Out) header
    iw mw lt (s : state Item Out) :
  reachable handler header iw mw lt s →
  (∀ t1 t2 w1 w2,
     threads s !! t1 = Some w1 → threads s !! t2 = Some w2 →
     holds_lock (pc w1) = true → holds_lock (pc w2) = true → t1 = t2) ∧
  (∀ t w, threads s !! t = Some w → holds_lock (pc w) = true →
          client_locks (client s) = false) ∧
  (∀ a s', step handler header s a = Some s' →
           qWork (pl s') ≠ qWork (pl s) →
           (∃ pick, a = AClient pick ∧ queueMutex (pl s) = Some OClient) ∨
           (∃ t, a = AWorker t ∧ queueMutex (pl s) = Some (OWorker t))) ∧
  (∀ t w, threads s !! t = Some w → pc w = WtRun ∨ pc w = LambdaRun →
          queueMutex (pl s) ≠ Some (OWorker t)).
Proof.
  intros Hr. destruct (mutex_inv_reachable _ _ _ _ _ _ Hr) as (H1 & H2 & H3).
  split; [|split; [|split]].
  - intros t1 t2 w1 w2 Hw1 Hw2 Hh1 Hh2.
    pose proof (H1 _ _ Hw1 Hh1). pose proof (H1 _ _ Hw2 Hh2). congruence.
  - intros t w Hw Hh. destruct (client_locks (client s)) eqn:E; [|done].
    pose proof (H1 _ _ Hw Hh). pose proof (H2 eq_refl). congruence.
  - intros a s' Hs Hq. step_inv Hs; fields; try done.
    + left. eexists. split; [done|]. by apply H2.
    + right. eexists. split; [done|]. eapply H1; [done|].
      by match goal with E : pc _ = _ |- _ => rewrite E end.
  - intros t w Hw Hpc Ho.
    assert (0 < tally (λ w, holds_lock (pc w)) (threads s)) as Hpos.
    { unfold locked in H3. rewrite Ho in H3. cbn in H3.
      destruct (client_locks (client s)) eqn:E; [|cbn in H3; lia].
      pose proof (H2 eq_refl). congruence. }
    apply tally_pos_lookup in Hpos as (t' & w' & Hw' & Hh').
    pose proof (H1 _ _ Hw' Hh') as Ho'. rewrite Ho in Ho'. simplify_eq.
    by destruct Hpc as [E|E]; rewrite E in Hh'.
Qed.

Lemma queue_mutual_exclusion_witness :
  ∃ s w,
    run sample_handler FireAndForget (construct 2 4 3) sample_schedule
      = Some s ∧
    threads s !! 0%nat = Some w ∧ pc w = WtRun ∧
    queueMutex (pl s) ≠ Some (OWorker 0).
Proof.
  destruct (run sample_handler FireAndForget (construct 2 4 3) sample_schedule)
    as [s|] eqn:E; [|by vm_compute in E].
  assert (Hr : reachable sample_handler FireAndForget 2 4 3 s)
    by (eapply reachable_run; [apply reach_construct|exact E]).
  destruct (threads s !! 0%nat) as [w|] eqn:Hw;
    [|by vm_compute in E; simplify_eq].
  assert (Hpc : pc w = WtRun)
    by (vm_compute in E; simplify_eq; by vm_compute in Hw; simplify_eq).
  exists s, w. do 3 (split; [done|]).
  destruct (queue_mutual_exclusion _ _ _ _ _ _ Hr) as (_ & _ & _ & H).
  apply (H _ _ Hw). by left.
Defined.

(** X2. No queued item is lost or handled twice: in every reachable state
    the items pushed so far are, as a multiset, the items on which the loop
    of [workthread] has entered the handler, the items popped and held by a
    worker that has not yet called the handler, and the items still in the
    queue. *)
Theorem queued_items_handled_once {Item Out} (handler : Item → Out) header
    iw mw lt (s : state Item Out) :
  reachable handler header iw mw lt s →
  loop_calls (log s) ++ in_flight s ≡ₚ item <$> pops (log s) ∧
  loop_calls (log s) ++ in_flight s ++ (item <$> qWork (pl s))
  ≡ₚ item <$> pushes (log s).
Proof.
  intros Hr. pose proof (handled_once_reachable _ _ _ _ _ _ Hr) as H.
  destruct (fifo_inv_reachable _ _ _ _ _ _ Hr) as (Hq & _).
  split; [done|]. unfold handled_once in H.
  by rewrite <- Hq, fmap_app, app_assoc, H.
Qed.

Lemma queued_items_handled_once_witness :
  ∃ s,
    run sample_handler FireAndForget (construct 2 4 3) overtaking_schedule
      = Some s ∧
    loop_calls (log s) ++ in_flight s ++ (item <$> qWork (pl s))
    ≡ₚ item <$> pushes (log s).
Proof.
  destruct (run sample_handler FireAndForget (construct 2 4 3)
              overtaking_schedule) as [s|] eqn:E; [|by vm_compute in E].
  exists s. split; [done|].
  apply (queued_items_handled_once sample_handler FireAndForget 2 4 3 s).
  eapply reachable_run; [apply reach_construct|exact E].
Defined.

(** X3. tmp.h, [doWork] on the queue path: in every reachable state a
    worker that stands at [workPair.result->set_value( ... )] or at
    [delete workPair.result] performs it with a defined outcome (the
    promise is live, and at [set_value] it has no value yet); no promise is
    given a value more than once; and a value that a promise holds is the
    handler's value for the item of a pair that points to this promise and
    was popped from the queue. *)
Theorem doWork_delivers_once {Item Out} (handler : Item → Out)
    iw mw lt (s : state Item Out) :
  reachable handler WithFuture iw mw lt s →
  (∀ t w, threads s !! t = Some w → pc w = WtSetValue ∨ pc w = WtDelete →
          is_Some (step handler WithFuture s (AWorker t))) ∧
  (∀ i, tally (is_fulfil i) (log s) ≤ 1) ∧
  (∀ i p v, promises s !! i = Some p → value p = Some v →
            ∃ t wp, EvPop t wp ∈ log s ∧ result wp = Some i ∧
                    v = handler (item wp)).
Proof.
  intros Hr.
  pose proof (pairs_inv_reachable _ _ _ _ _ Hr) as (_ & P2 & _ & P4).
  pose proof (promise_inv_reachable _ _ _ _ _ _ Hr) as Hi.
  split; [|split].
  - intros t w Hw Hpc.
    destruct (P2 t w Hw) as (wp & Hwi & [i Hi'] & _ & Hval);
      [by destruct Hpc as [E|E]; rewrite E|].
    specialize (Hval Hpc).
    destruct (Hi i) as (_ & Hb & Hc & _).
    unfold owners_empty, owners_full in *.
    pose proof (tally_nonneg (points i) (qWork (pl s))).
    assert (0 ≤ b2z (submits i (client s)))
      by (destruct (submits _ _); simpl; lia).
    pose proof (tally_lookup_le (holds_empty i) _ _ _ Hw) as Le.
    pose proof (tally_lookup_le (holds_full i) _ _ _ Hw) as Lf.
    unfold step, worker_step. rewrite Hw.
    destruct Hpc as [E|E]; rewrite E, Hwi, ?Hval, Hi'.
    + replace (holds_empty i w) with true in Le
        by (unfold holds_empty, points;
            by rewrite E, Hwi, Hi', bool_decide_eq_true_2).
      cbn [b2z] in Le. unfold empty_live in Hb.
      destruct (promises s !! i) as [[[?|] []]|]; try (by eexists);
        (specialize (Hb ltac:(lia)); done).
    + replace (holds_full i w) with true in Lf
        by (unfold holds_full, points;
            by rewrite E, Hwi, Hi', bool_decide_eq_true_2).
      cbn [b2z] in Lf. unfold full_live in Hc.
      destruct (promises s !! i) as [[[?|] []]|]; try (by eexists);
        (specialize (Hc ltac:(lia)); done).
  - intros i. destruct (Hi i) as (_ & _ & _ & ->).
    destruct (has_value _ _); simpl; lia.
  - intros i p v Hp Hv.
    destruct (value_logged _ _ _ _ _ _ _ _ _ Hr Hp Hv) as [t Hf].
    destruct (P4 _ _ _ Hf) as (wp & ? & ? & ?). by exists t, wp.
Qed.

Lemma doWork_delivers_once_witness :
  ∃ s p v,
    run sample_future_handler WithFuture (construct 1 4 1)
      served_with_future = Some s ∧
    promises s !! 0%nat = Some p ∧ value p = Some v ∧
    ∃ t wp, EvPop t wp ∈ log s ∧ result wp = Some 0%nat ∧
            v = sample_future_handler (item wp).
Proof.
  destruct (run sample_future_handler WithFuture (construct 1 4 1)
              served_with_future) as [s|] eqn:E; [|by vm_compute in E].
  assert (Hr : reachable sample_future_handler WithFuture 1 4 1 s)
    by (eapply reachable_run; [apply reach_construct|exact E]).
  destruct (promises s !! 0%nat) as [p|] eqn:Hp;
    [|by vm_compute in E; simplify_eq].
  destruct (value p) as [v|] eqn:Hv;
    [|by vm_compute in E; simplify_eq; vm_compute in Hp; simplify_eq].
  exists s, p, v. do 3 (split; [done|]).
  destruct (doWork_delivers_once _ _ _ _ _ Hr) as (_ & _ & H).
  exact (H _ _ _ Hp Hv).
Defined.

(** X4. The return of [kill()]: on the step on which the wait loop ends,
    [nWorker] reads zero, [quit] is set, the queue mutex is free and every
    thread stands outside the body of the loop of [workthread]; from then
    on [quit] stays set, nothing is taken from the queue and the loop does
    not enter the handler, whatever is called afterwards: what is in the
    queue then, or is queued later, is never executed. *)
Theorem kill_returns_with_the_loop_at_rest {Item Out} (handler : Item → Out)
    header iw mw lt (s s' : state Item Out) spincount pick :
  reachable handler header iw mw lt s →
  tally counted (threads s) < 2 ^ 31 →
  client s = KillSpin spincount →
  step handler header s (AClient pick) = Some s' → client s' = CIdle →
  nWorker (pl s') = 0 ∧ quit (pl s') = true ∧ queueMutex (pl s') = None ∧
  (∀ t w, threads s' !! t = Some w → outside_body (pc w) = true) ∧
  ∀ tr s'', run handler header s' tr = Some s'' →
            quit (pl s'') = true ∧
            pops (log s'') = pops (log s') ∧
            loop_calls (log s'') = loop_calls (log s') ∧
            qWork (pl s') `prefix_of` qWork (pl s'').
Proof.
  intros Hr Hb Hc Hs Hc'.
  destruct (kill_returns_drained _ _ _ _ _ _ _ _ _ Hr Hb Hc Hs Hc')
    as ([Hq Hd] & Hn & _).
  split; [done|]. split; [done|]. split; [|split; [done|]].
  - assert (Hr' : reachable handler header iw mw lt s')
      by (by eapply reach_step).
    destruct (mutex_inv_reachable _ _ _ _ _ _ Hr') as (H1 & H2 & H3).
    destruct (queueMutex (pl s')) as [o|] eqn:E; [|done].
    unfold locked in H3. rewrite E, Hc' in H3. cbn in H3.
    assert (0 < tally (λ w, holds_lock (pc w)) (threads s')) as Hpos by lia.
    apply tally_pos_lookup in Hpos as (t & w & Hw & Hh).
    pose proof (Hd _ _ Hw) as Ho. by destruct (pc w).
  - intros tr s'' Hrun.
    destruct (drained_run _ _ _ _ _ (conj Hq Hd) Hrun) as ([? _] & ? & ? & ?).
    done.
Qed.

Lemma kill_returns_with_the_loop_at_rest_witness :
  ∃ s s',
    run sample_handler FireAndForget (construct 1 4 1) kill_with_item_queued
      = Some s ∧
    step sample_handler FireAndForget s (AClient 0) = Some s' ∧
    qWork (pl s') = [mkWorkPair None 7%nat] ∧
    ∀ tr s'', run sample_handler FireAndForget s' tr = Some s'' →
              quit (pl s'') = true ∧
              pops (log s'') = pops (log s') ∧
              loop_calls (log s'') = loop_calls (log s') ∧
              qWork (pl s') `prefix_of` qWork (pl s'').
Proof.
  destruct (run sample_handler FireAndForget (construct 1 4 1)
              kill_with_item_queued) as [s|] eqn:E; [|by vm_compute in E].
  assert (Hr : reachable sample_handler FireAndForget 1 4 1 s)
    by (eapply reachable_run; [apply reach_construct|exact E]).
  assert (Hb : tally counted (threads s) < 2 ^ 31)
    by (vm_compute in E; simplify_eq; by vm_compute).
  assert (Hc : client s = KillSpin 10000)
    by (vm_compute in E; by simplify_eq).
  destruct (step sample_handler FireAndForget s (AClient 0)) as [s'|] eqn:Hs;
    [|by vm_compute in E; simplify_eq; vm_compute in Hs].
  assert (Hc' : client s' = CIdle)
    by (vm_compute in E; simplify_eq; vm_compute in Hs; by simplify_eq).
  assert (Hq : qWork (pl s') = [mkWorkPair None 7%nat])
    by (vm_compute in E; simplify_eq; vm_compute in Hs; by simplify_eq).
  exists s, s'. do 3 (split; [done|]).
  destruct (kill_returns_with_the_loop_at_rest _ _ _ _ _ _ _ _ _
              Hr Hb Hc Hs Hc') as (_ & _ & _ & _ & H).
  exact H.
Defined.

(** X5. [quit] is never reset, and once it is set every thread enters the
    handler at most once more: a thread that is in the body of the loop of
    [workthread] before the call, or at the start of the lambda of
    [addWorkerWithWork], or that is started later, can still make one
    invocation; a thread at any other program point makes none. *)
Theorem quit_allows_one_more_call {Item Out} (handler : Item → Out) header
    (s s' : state Item Out) tr :
  quit (pl s) = true → run handler header s tr = Some s' →
  quit (pl s') = true ∧
  ∀ t, calls t s ≤ calls t s' ≤ calls t s + 1 ∧
       (∀ w, threads s !! t = Some w → may_call (pc w) = false →
             calls t s' = calls t s).
Proof.
  intros Hq Hrun. destruct (quit_run _ _ _ _ _ Hq Hrun) as [Hq' H].
  split; [done|]. intros t. specialize (H t).
  pose proof (calls_prefix t _ _ (log_grows_run _ _ _ _ _ Hrun)).
  pose proof (calls_left_bounds t s). pose proof (calls_left_bounds t s').
  split; [lia|]. intros w Hw Hm. unfold calls_left in H at 2.
  rewrite Hw, Hm in H. simpl in H. lia.
Qed.

Lemma quit_allows_one_more_call_witness :
  ∃ s s',
    run sample_handler FireAndForget (construct 1 4 3) quit_during_iteration
      = Some s ∧
    run sample_handler FireAndForget s (repeat (AWorker 0%nat) 11) = Some s' ∧
    calls 0 s = 0 ∧ calls 0 s' = 1 ∧
    ∀ t, calls t s ≤ calls t s' ≤ calls t s + 1.
Proof.
  destruct (run sample_handler FireAndForget (construct 1 4 3)
              quit_during_iteration) as [s|] eqn:E; [|by vm_compute in E].
  destruct (run sample_handler FireAndForget s (repeat (AWorker 0%nat) 11))
    as [s'|] eqn:E'; [|by vm_compute in E; simplify_eq; vm_compute in E'].
  assert (Hq : quit (pl s) = true) by (vm_compute in E; by simplify_eq).
  assert (calls 0 s = 0) by (vm_compute in E; by simplify_eq).
  assert (calls 0 s' = 1)
    by (vm_compute in E; simplify_eq; vm_compute in E'; by simplify_eq).
  exists s, s'. do 4 (split; [done|]).
  intros t.
  destruct (quit_allows_one_more_call _ _ _ _ _ Hq E') as [_ Hcalls].
  apply Hcalls.
Defined.

(** X6. [kill()] can wait forever.  [quit] is tested outside the queue
    mutex: a worker that has passed the test of the loop when [kill()]
    sets [quit] and calls [notify_all] goes on to [signal.wait] and is not
    woken by that notification.  With one worker and any positive life
    time the pool reaches a state in which [kill()] is in its wait loop,
    [nWorker] is 1 and the only thread is blocked; as long as the
    condition variable does not wake the thread spuriously, every further
    step is a turn of that loop. *)
Theorem kill_can_wait_forever {Item Out} (handler : Item → Out) header mw lt :
  0 < lt →
  ∃ s : state Item Out,
    run handler header (construct 1 mw lt) notify_before_wait = Some s ∧
    quit (pl s) = true ∧ hung s ∧
    ∀ tr s', forallb (λ a, negb (is_spurious a)) tr = true →
             run handler header s tr = Some s' →
             (∃ spincount, client s' = KillSpin spincount) ∧
             threads s' = threads s ∧ log s' = log s.
Proof.
  intros Hlt. apply Z.ltb_lt in Hlt.
  pose proof (construct_fields (Item:=Item) (Out:=Out) 1 mw lt) as H.
  cbv zeta in H. change (Z.to_nat 1) with 1%nat in H.
  destruct (construct 1 mw lt) as [p ts c ps m lg]. cbn in H.
  destruct H as (-> & -> & -> & -> & -> & ->).
  exists (mkState (mkPool 1 1 0 [] [] None lt mw true)
            [mkWorker WtBlocked lt None None lt false] (KillSpin 10000)
            [] ∅ []).
  assert (hung (Item:=Item) (Out:=Out)
            (mkState (mkPool 1 1 0 [] [] None lt mw true)
               [mkWorker WtBlocked lt None None lt false] (KillSpin 10000)
               [] ∅ [])) as Hh.
  { split; [by eexists|]. split; [done|].
    intros [|t] w Hl; simplify_eq/=. by left. }
  split; [|split; [done|split; [done|]]].
  - cbn [notify_before_wait repeat app run]. run_step.
    erewrite loop_test by reflexivity.
    cbn [pl quit lifeCount negb andb]. rewrite Hlt. do 8 run_step.
    reflexivity.
  - intros tr s' Hns Hrun.
    destruct (hung_run _ _ _ _ _ Hh Hns Hrun) as ((? & _) & _ & ? & ?).
    done.
Qed.

Lemma kill_can_wait_forever_witness :
  ∃ s : state nat bool,
    run sample_handler FireAndForget (construct 1 4 1) notify_before_wait
      = Some s ∧
    quit (pl s) = true ∧ hung s ∧
    ∀ tr s', forallb (λ a, negb (is_spurious a)) tr = true →
             run sample_handler FireAndForget s tr = Some s' →
             (∃ spincount, client s' = KillSpin spincount) ∧
             threads s' = threads s ∧ log s' = log s.
Proof. apply (kill_can_wait_forever sample_handler FireAndForget 4 1). lia. Defined.

(** X7. tmp.h: [enqueue] can touch a deleted promise.  On the queueing
    branch [enqueue] reads [workPair.result] for [get_future()] after it
    has queued the pair and released the mutex; a worker can pop the pair
    and run [doWork], which deletes the promise, before that.  With one
    worker, a non-negative [maxWorker] and a positive life time, for every
    handler and item the pool reaches a state in which [enqueue] stands at
    its [return] and the promise has been fulfilled and deleted, so that
    the step has no defined outcome. *)
Theorem get_future_after_delete {Item Out} (handler : Item → Out) mw lt x :
  0 ≤ mw → 0 < lt →
  ∃ s : state Item Out,
    run handler WithFuture (construct 1 mw lt) (served_before_return x)
      = Some s ∧
    client s = EnqReturn (mkWorkPair (Some 0%nat) x) ∧
    promises s !! 0%nat = Some (mkPromise (Some (handler x)) true) ∧
    ∀ pick, step handler WithFuture s (AClient pick) = None.
Proof.
  intros Hmw Hlt. apply Z.ltb_ge in Hmw. apply Z.ltb_lt in Hlt.
  pose proof (construct_fields (Item:=Item) (Out:=Out) 1 mw lt) as H.
  cbv zeta in H. change (Z.to_nat 1) with 1%nat in H.
  destruct (construct 1 mw lt) as [p ts c ps m lg]. cbn in H.
  destruct H as (-> & -> & -> & -> & -> & ->).
  eexists. split.
  { cbn [served_before_return repeat app run]. run_step.
    erewrite (proj1 (enqueue_tests _ _ _ _ _)) by reflexivity.
    cbn [pl maxWorker nWorker]. rewrite Hmw. do 4 run_step.
    erewrite loop_test by reflexivity.
    cbn [pl quit lifeCount negb andb]. rewrite Hlt. do 10 run_step.
    reflexivity. }
  split; [reflexivity|]. split; [reflexivity|]. intros pick. reflexivity.
Qed.

Lemma get_future_after_delete_witness :
  ∃ s : state nat nat,
    run sample_future_handler WithFuture (construct 1 4 1)
      (served_before_return 7%nat) = Some s ∧
    client s = EnqReturn (mkWorkPair (Some 0%nat) 7%nat) ∧
    promises s !! 0%nat = Some (mkPromise (Some 8%nat) true) ∧
    ∀ pick, step sample_future_handler WithFuture s (AClient pick) = None.
Proof.
  apply (get_future_after_delete sample_future_handler 4 1 7%nat); lia.
Defined.

(** X8. The guard of [notify_one] in [enqueue] looks at the right
    counter: as long as the counters have not wrapped, the test
    [nWaiting.load() > 0] succeeds exactly when some thread stands between
    its [nWaiting.fetch_add(1)] and its [nWaiting.fetch_sub(1)], in
    particular whenever a thread is blocked in [signal.wait]; and
    [notify_one] then takes a blocked thread out of the wait. *)
Theorem enqueue_notifies_iff_waiting {Item Out} (handler : Item → Out) header
    iw mw lt (s : state Item Out) wp pick :
  reachable handler header iw mw lt s →
  tally counted (threads s) < 2 ^ 31 →
  client s = EnqTestNotify wp →
  ((∃ t w, threads s !! t = Some w ∧ waiting w = true) →
   step handler header s (AClient pick) = Some (set_client (EnqNotify wp) s)) ∧
  ((∀ t w, threads s !! t = Some w → waiting w = false) →
   step handler header s (AClient pick) = Some (set_client (EnqReturn wp) s)) ∧
  (∀ t w, threads s !! t = Some w → pc w = WtBlocked →
          step handler header (set_client (EnqNotify wp) s) (AClient t)
          = Some (set_client (EnqReturn wp)
                    (set_thread t (set_pc WtWoken w) s))).
Proof.
  intros Hr Hb Hc.
  destruct (counters_ok_reachable _ _ _ _ _ _ Hr) as (_ & Hw & _).
  pose proof (tally_nonneg waiting (threads s)) as N1.
  pose proof (tally_nonneg working (threads s)) as N2.
  pose proof (tally_sum_le waiting working counted (threads s) regions_nested).
  rewrite wrap32_id in Hw by lia.
  split; [|split].
  - intros (t & w & Ht & Hwait).
    pose proof (tally_lookup_le waiting _ _ _ Ht) as Hle.
    rewrite Hwait in Hle. cbn [b2z] in Hle.
    unfold step, client_step. rewrite Hc.
    by rewrite (proj2 (Z.ltb_lt 0 (nWaiting (pl s)))) by lia.
  - intros Hnone. rewrite (tally_all_false _ _ Hnone) in Hw.
    unfold step, client_step. rewrite Hc.
    by rewrite (proj2 (Z.ltb_ge 0 (nWaiting (pl s)))) by lia.
  - intros t w Ht Hpc.
    assert (blocked w = true) as Hbl
      by (unfold blocked; by apply bool_decide_eq_true_2).
    unfold step, client_step, notify_one. cbn [set_client client threads].
    destruct (forallb _ (threads s)) eqn:Hall.
    + rewrite forallb_forall in Hall.
      specialize (Hall w (proj1 (list_elem_of_In _ _)
                            (list_elem_of_lookup_2 _ _ _ Ht))).
      by rewrite Hbl in Hall.
    + rewrite Ht, Hbl. unfold wake. by rewrite Hbl.
Qed.

Lemma enqueue_notifies_iff_waiting_witness :
  ∃ s,
    run sample_handler FireAndForget (construct 1 4 3) enqueue_finds_waiter
      = Some s ∧
    step sample_handler FireAndForget s (AClient 0)
    = Some (set_client (EnqNotify (mkWorkPair None 5%nat)) s).
Proof.
  destruct (run sample_handler FireAndForget (construct 1 4 3)
              enqueue_finds_waiter) as [s|] eqn:E; [|by vm_compute in E].
  assert (Hr : reachable sample_handler FireAndForget 1 4 3 s)
    by (eapply reachable_run; [apply reach_construct|exact E]).
  assert (Hb : tally counted (threads s) < 2 ^ 31)
    by (vm_compute in E; simplify_eq; by vm_compute).
  assert (Hc : client s = EnqTestNotify (mkWorkPair None 5%nat))
    by (vm_compute in E; by simplify_eq).
  destruct (threads s !! 0%nat) as [w|] eqn:Hw;
    [|by vm_compute in E; simplify_eq].
  assert (Hwait : waiting w = true)
    by (vm_compute in E; simplify_eq; by vm_compute in Hw; simplify_eq).
  exists s. split; [done|].
  destruct (enqueue_notifies_iff_waiting _ _ _ _ _ _ _ 0%nat Hr Hb Hc)
    as [H _].
  apply H. by exists 0%nat, w.
Defined.

(** X9. The pool before the first call.  The constructor starts its
    threads inside its loop, so that on its return, and until a member
    function is called, the threads may have made any number of steps.
    Whatever they have done, there are exactly [_initialWorkers] threads
    (none if that number is not positive), with one handle each in
    [workers]; the queue is empty, [quit] is not set and [nWorking] is 0;
    no handler has been called and nothing has been popped; and every
    thread still has its full life count [_lifeTime] and stands at the
    entry of [workthread], at the test of the loop, on its way into or out
    of [signal.wait], or, with [_lifeTime <= 0], at its end. *)
Theorem workers_idle_before_the_first_call {Item Out} (handler : Item → Out)
    header iw mw lt tr (s : state Item Out) :
  forallb is_thread_action tr = true →
  run handler header (construct iw mw lt) tr = Some s →
  fresh_pool (Z.to_nat iw) mw lt s ∧
  (∀ t w, threads s !! t = Some w → 0 < lt →
          pc w ≠ WtLeave ∧ pc w ≠ Done) ∧
  (∀ t w, threads s !! t = Some w → lt ≤ 0 →
          pc w = WtEnter ∨ pc w = WtLoop ∨ pc w = WtLeave ∨ pc w = Done).
Proof.
  intros Hall Hrun.
  pose proof (fresh_pool_run _ _ _ _ _ _ _ _
                (fresh_pool_construct iw mw lt) Hall Hrun) as HF.
  split; [done|].
  assert (Hr : reachable handler header iw mw lt s)
    by (eapply reachable_run; [apply reach_construct|exact Hrun]).
  destruct HF as (_ & _ & _ & _ & _ & Hq & _ & _ & _ & _ & _ & HF).
  destruct (life_inv_reachable _ _ _ _ _ _ Hr) as [HL _].
  split; intros t w Hw Hlt; destruct (HF _ _ Hw) as (Hb & Hlc & _);
    destruct (HL _ _ Hw) as [(_ & _ & H3) _];
    destruct (pc w); simpl in H3; try done;
    rewrite ?Hq in H3; destruct_and?; destruct_or?; try done; try lia;
    auto.
Qed.

Lemma workers_idle_before_the_first_call_witness :
  ∃ s w0 w1,
    run sample_handler FireAndForget (construct 2 4 3) workers_run_early
      = Some s ∧
    threads s !! 0%nat = Some w0 ∧ pc w0 = WtBlocked ∧
    threads s !! 1%nat = Some w1 ∧ pc w1 = WtLoop ∧
    fresh_pool 2 4 3 s.
Proof.
  destruct (run sample_handler FireAndForget (construct 2 4 3)
              workers_run_early) as [s|] eqn:E; [|by vm_compute in E].
  destruct (workers_idle_before_the_first_call sample_handler FireAndForget
              2 4 3 workers_run_early s eq_refl E) as [H _].
  vm_compute in E. injection E as <-.
  eexists _, _, _. split; [reflexivity|]. do 4 (split; [reflexivity|]).
  exact H.
Defined.

(** X10. A worker is never stuck on its own.  In every reachable state a
    thread that stands at [workItem = qWork.front()] finds the queue
    non-empty, because it has held the mutex since it saw the queue
    non-empty; and every thread that is not blocked in [signal.wait], has
    not returned, is not inside [doWork] and, where its next statement
    takes the mutex, finds the mutex free, has a next step with a defined
    outcome. *)
Theorem worker_steps_are_defined {Item Out} (handler : Item → Out) header
    iw mw lt (s : state Item Out) t w :
  reachable handler header iw mw lt s →
  threads s !! t = Some w →
  (pc w = WtPop → qWork (pl s) ≠ []) ∧
  (at_rest (pc w) = false → in_doWork (pc w) = false →
   (needs_mutex (pc w) = true → queueMutex (pl s) = None) →
   is_Some (step handler header s (AWorker t))).
Proof.
  intros Hr Hw. destruct (work_inv_reachable _ _ _ _ _ _ Hr) as [H1 H2].
  split; [by apply (H1 t)|]. intros Hrest Hdo Hm.
  unfold step. rewrite Hw. unfold worker_step.
  specialize (H1 _ _ Hw). specialize (H2 _ _ Hw).
  destruct (pc w) eqn:Hpc; try done; cbn in H2, Hm;
    try (destruct H2 as [wp ->]; [done|]);
    try rewrite Hm by done;
    try by eexists.
  - by destruct (_ && _).
  - by destruct (qWork (pl s)).
  - by destruct (qWork (pl s)).
  - destruct (qWork (pl s)); [by destruct H1|by eexists].
Qed.

Lemma worker_steps_are_defined_witness :
  ∃ s w,
    run sample_handler FireAndForget (construct 2 4 3) overtaking_schedule
      = Some s ∧
    threads s !! 0%nat = Some w ∧
    is_Some (step sample_handler FireAndForget s (AWorker 0)).
Proof.
  destruct (run sample_handler FireAndForget (construct 2 4 3)
              overtaking_schedule) as [s|] eqn:E; [|by vm_compute in E].
  assert (Hr : reachable sample_handler FireAndForget 2 4 3 s)
    by (eapply reachable_run; [apply reach_construct|exact E]).
  destruct (threads s !! 0%nat) as [w|] eqn:Hw;
    [|by vm_compute in E; simplify_eq].
  exists s, w. do 2 (split; [done|]).
  destruct (worker_steps_are_defined _ _ _ _ _ _ _ _ Hr Hw) as [_ H].
  apply H; vm_compute in E; simplify_eq; vm_compute in Hw; by simplify_eq.
Defined.

(** X11. [enqueue( x )] run without interference, from a state in which
    the calling thread is idle.  If [maxWorker < nWorker] and nobody
    waits, it starts one thread with life count 10 that holds the item
    and touches neither the queue nor the mutex.  In every other case,
    with the mutex free, it appends the item to the queue; with
    [nWaiting <= 0] it does not call [notify_one]; with [nWaiting > 0] it
    calls [notify_one], which wakes the blocked thread it picks, or
    nobody when no thread is blocked (the waiting threads have been woken
    already, or have not yet reached [signal.wait]).  In each case it
    returns, in tmp.h with a fresh promise that is still alive, and
    changes nothing else. *)
Theorem enqueue_run_alone {Item Out} (handler : Item → Out) header
    (s : state Item Out) x p :
  client s = CIdle →
  (maxWorker (pl s) < nWorker (pl s) → nWaiting (pl s) = 0 →
   run handler header s (ACall (CallEnqueue x) :: repeat (AClient p) 4)
   = Some (addWorkerWithWork 10 (new_pair header x s)
             (with_promise header s))) ∧
  (queueMutex (pl s) = None →
   ¬ (maxWorker (pl s) < nWorker (pl s) ∧ nWaiting (pl s) = 0) →
   nWaiting (pl s) ≤ 0 →
   run handler header s
     (ACall (CallEnqueue x)
      :: repeat (AClient p)
           (if maxWorker (pl s) <? nWorker (pl s) then 7 else 6))
   = Some (emit (EvPush (new_pair header x s))
             (upd_pool (set_qWork (qWork (pl s) ++ [new_pair header x s]))
                (with_promise header s)))) ∧
  (queueMutex (pl s) = None → 0 < nWaiting (pl s) →
   ∀ t w, threads s !! t = Some w → pc w = WtBlocked →
     run handler header s
       (ACall (CallEnqueue x)
        :: repeat (AClient p)
             (if maxWorker (pl s) <? nWorker (pl s) then 6 else 5)
        ++ [AClient t; AClient p])
     = Some (set_thread t (set_pc WtWoken w)
               (emit (EvPush (new_pair header x s))
                  (upd_pool
                     (set_qWork (qWork (pl s) ++ [new_pair header x s]))
                     (with_promise header s))))) ∧
  (queueMutex (pl s) = None → 0 < nWaiting (pl s) →
   (∀ t w, threads s !! t = Some w → pc w ≠ WtBlocked) →
   run handler header s
     (ACall (CallEnqueue x)
      :: repeat (AClient p)
           (if maxWorker (pl s) <? nWorker (pl s) then 8 else 7))
   = Some (emit (EvPush (new_pair header x s))
             (upd_pool (set_qWork (qWork (pl s) ++ [new_pair header x s]))
                (with_promise header s)))).
Proof.
  intros Hc. split; [|split; [|split]].
  - intros. by apply enqueue_alone_spawns.
  - intros. by apply enqueue_alone_queues.
  - intros. by apply enqueue_alone_notifies.
  - intros. by apply enqueue_alone_notifies_nobody.
Qed.

Lemma enqueue_run_alone_witness :
  ∃ s',
    run sample_handler FireAndForget (construct 1 4 1)
      (ACall (CallEnqueue 7%nat) :: repeat (AClient 0%nat) 6) = Some s' ∧
    qWork (pl s') = [mkWorkPair None 7%nat] ∧ length (threads s') = 1%nat.
Proof.
  destruct (enqueue_run_alone sample_handler FireAndForget
              (construct 1 4 1) 7%nat 0%nat eq_refl) as (_ & H & _).
  eexists. split; [apply H; [reflexivity|by intros [? _]|by vm_compute]|].
  split; reflexivity.
Defined.

(** X12. One turn of the loop of [workthread] run without interference,
    from the test of the loop with [quit] not set, a positive life count,
    the mutex free and the queue non-empty: the thread pops the pair at
    the head of the queue, enters the handler once, on the item of that
    pair, and is back at the test with its life count one less; the mutex
    is free again, [nWaiting] was not touched and [nWorking] is back at its
    value.  In tmp.h the promise of the pair, if it is alive and empty,
    has received the handler's value and has been deleted. *)
Theorem iteration_run_alone {Item Out} (handler : Item → Out)
    (s : state Item Out) t w wp q :
  threads s !! t = Some w → pc w = WtLoop →
  quit (pl s) = false → 0 < lifeCount w →
  queueMutex (pl s) = None → qWork (pl s) = wp :: q →
  - 2 ^ 31 ≤ nWorking (pl s) < 2 ^ 31 →
  run handler FireAndForget s (repeat (AWorker t) 10)
  = Some (emit (EvRet t (item wp) (handler (item wp)))
            (emit (EvCall t false (item wp))
               (emit (EvPop t wp)
                  (set_thread t
                     (set_lifeCount (lifeCount w - 1)
                        (set_resultVar (Some (handler (item wp)))
                           (set_workItem (Some wp) w)))
                     (upd_pool (set_qWork q) s))))) ∧
  (∀ i, result wp = Some i →
        promises s !! i = Some (mkPromise None false) →
        run handler WithFuture s (repeat (AWorker t) 12)
        = Some (emit (EvFulfil t i (handler (item wp)))
                  (emit (EvRet t (item wp) (handler (item wp)))
                     (emit (EvCall t false (item wp))
                        (emit (EvPop t wp)
                           (set_thread t
                              (set_lifeCount (lifeCount w - 1)
                                 (set_resultVar (Some (handler (item wp)))
                                    (set_workItem (Some wp) w)))
                              (set_promises
                                 (<[i := mkPromise (Some (handler (item wp)))
                                           true]> (promises s))
                                 (upd_pool (set_qWork q) s)))))))).
Proof.
  intros. split; [by apply iteration_alone|].
  intros. by apply iteration_alone_doWork.
Qed.

Lemma iteration_run_alone_witness :
  ∃ s s',
    run sample_handler FireAndForget (construct 1 4 1) item_queued_for_worker
      = Some s ∧
    run sample_handler FireAndForget s (repeat (AWorker 0%nat) 10) = Some s' ∧
    qWork (pl s') = [] ∧ calls 0 s' = 1 ∧ nWorking (pl s') = 0.
Proof.
  destruct (run sample_handler FireAndForget (construct 1 4 1)
              item_queued_for_worker) as [s|] eqn:E; [|by vm_compute in E].
  destruct (threads s !! 0%nat) as [w|] eqn:Hw;
    [|by vm_compute in E; simplify_eq].
  assert (Hpc : pc w = WtLoop)
    by (vm_compute in E; simplify_eq; by vm_compute in Hw; simplify_eq).
  assert (Hlife : 0 < lifeCount w)
    by (vm_compute in E; simplify_eq; by vm_compute in Hw; simplify_eq).
  assert (Hq : quit (pl s) = false) by (vm_compute in E; by simplify_eq).
  assert (Hm : queueMutex (pl s) = None) by (vm_compute in E; by simplify_eq).
  assert (Hqw : qWork (pl s) = [mkWorkPair None 7%nat])
    by (vm_compute in E; by simplify_eq).
  assert (Hn : - 2 ^ 31 ≤ nWorking (pl s) < 2 ^ 31)
    by (vm_compute in E; simplify_eq; cbn; lia).
  destruct (iteration_run_alone sample_handler s 0%nat w _ _
              Hw Hpc Hq Hlife Hm Hqw Hn) as [Hrun _].
  eexists s, _. split; [done|]. split; [exact Hrun|].
  split; [reflexivity|]. vm_compute in E. simplify_eq.
  split; reflexivity.
Defined.

(** X13. [kill()] run without interference, from a state in which the
    calling thread is idle: it sets [quit], wakes every thread blocked in
    [signal.wait] and empties [workers]; if [nWorker] is not positive it
    returns on the first test of the wait loop; otherwise it stays in the
    loop, and after [n] turns [spincount] is [max(0, 10000 - n)] (from then
    on each turn sleeps) and nothing else has changed. *)
Theorem kill_run_alone {Item Out} (handler : Item → Out) header
    (s : state Item Out) p :
  client s = CIdle →
  (nWorker (pl s) ≤ 0 →
   run handler header s (ACall CallKill :: repeat (AClient p) 4)
   = Some (emit EvKillReturn
             (upd_pool (λ q, set_workers [] (set_quit true q))
                (notify_all s)))) ∧
  (0 < nWorker (pl s) →
   ∀ n, run handler header s (ACall CallKill :: repeat (AClient p) (3 + n))
        = Some (set_client (KillSpin (Z.max 0 (10000 - Z.of_nat n)))
                  (upd_pool (λ q, set_workers [] (set_quit true q))
                     (notify_all s)))).
Proof.
  intros Hc. split.
  - intros. by apply kill_alone_returns.
  - intros. by apply kill_alone_spins.
Qed.

Lemma kill_run_alone_witness :
  ∃ s',
    run sample_handler FireAndForget (construct 1 4 1)
      (ACall CallKill :: repeat (AClient 0%nat) 4) = Some s' ∧
    quit (pl s') = true ∧ workers (pl s') = [] ∧ log s' = [EvKillReturn].
Proof.
  destruct (kill_run_alone sample_handler FireAndForget
              (construct 1 4 1) 0%nat eq_refl) as (H & _).
  eexists. split; [apply H; by vm_compute|].
  split; [reflexivity|]. split; reflexivity.
Defined.
